(** * bv_sls: the repair scheduler of the bit-vector SLS engine

    A shallow embedding of [src/ast/sls/bv_sls.cpp] (namespace [bv], class
    [sls]).  The scheduler owns two index sets of node ids, a seeded random
    generator, a configuration and statistics; it drives an evaluator
    ([m_eval]) over a term DAG ([m_terms]) and polls the resource limit of
    the AST manager ([m.inc()]).  The collaborators are interfaces here, as
    they are for the scheduler; the engine's member functions are state
    transformers on the record [sls]. *)

From stdpp Require Import base numbers list gmap fin_sets.

#[local] Set Warnings "-clear-no-such-hyp".

Local Open Scope N_scope.
Local Open Scope nat_scope.

(** ** Machine integers *)

(** [unsigned] is 32 bits wide; increments wrap. *)
Definition UINT_MAX : N := 4294967295%N.
Definition wrap32 (n : N) : N := (n mod 4294967296)%N.
Definition incr32 (n : N) : N := wrap32 (n + 1).

(** [lbool]: the three-valued result of a search. *)
Inductive lbool := l_false | l_undef | l_true.

#[global] Instance lbool_eq_dec : EqDecision lbool.
Proof. solve_decision. Defined.

(** ** Collaborating interfaces *)

(** The term DAG ([sls_terms] together with the sort tests of
    [ast_manager] and [bv_util]).  [terms] is the id-indexed vector of
    nodes, whose unused slots are null pointers. *)
Class Terms := {
  expr : Type;
  get_id : expr → nat;
  get_num_args : expr → nat;
  get_arg : expr → nat → expr;
  is_bool : expr → bool;
  is_bv : expr → bool;
  assertions : list expr;
  terms : list (option expr);
  term : nat → expr;
  parents : expr → list expr;
  is_assertion : expr → bool;
}.

(** A bit-vector valuation: its width, current bits and fixed mask. *)
Record sls_valuation := mk_valuation {
  bw : nat;
  bits : N;
  fixed : N;
}.

(** [w.get(v, i)]: bit [i] of the bit array [v]. *)
Definition get (v : N) (i : nat) : bool := N.testbit v (N.of_nat i).

(** [w.eq(other)]: the current bits coincide. *)
Definition valuation_eq (w other : sls_valuation) : bool :=
  bool_decide (bits w = bits other).

(** The evaluator ([sls_eval]).  Its state is opaque; every member the
    scheduler calls is a function of that state.  [eval_init_eval] receives
    the caller's oracle, a closure over caller state of type [R] that also
    reads the evaluator as it stands at the time of the call. *)
Class Evaluator `{Terms} := {
  sls_eval : Type;
  bval0 : sls_eval → expr → bool;
  bval1 : sls_eval → expr → bool;
  wval0 : sls_eval → expr → sls_valuation;
  wval1 : sls_eval → expr → sls_valuation;
  is_fixed0 : sls_eval → expr → bool;
  can_eval1 : sls_eval → expr → bool;
  eval_set : sls_eval → expr → bool → sls_eval;
  try_repair : sls_eval → expr → nat → bool * sls_eval;
  repair_up : sls_eval → expr → sls_eval;
  eval_init_eval :
    ∀ R : Type, sls_eval → list expr →
                (sls_eval → expr → nat → R → bool * R) → R → sls_eval * R;
  eval_init_fixed : sls_eval → list expr → sls_eval;
}.
Arguments eval_init_eval {_ _ R} _ _ _ _.

(** The random generator ([random_gen]): [rand_draw] is [m_rand()],
    [set_seed] installs a seed. *)
Class RandomGen := {
  random_gen : Type;
  rand_draw : random_gen → nat * random_gen;
  set_seed : N → random_gen;
}.

(** The host's resource limit behind [m.inc()]. *)
Class Host := {
  reslimit : Type;
  inc : reslimit → bool * reslimit;
}.

(** ** Repair sets *)

(** Modelled from the spec: the index set type of [m_repair_down] and
    [m_repair_up] ([indexed_uint_set], declared outside this file) is a
    finite set of node ids with [insert] (idempotent), [remove], [contains],
    [size], [empty], [reset] and [elem_at(k)], the k-th id in the current
    iteration order. *)
Module uint_set.
Definition insert (x : nat) (s : gset nat) : gset nat := {[x]} ∪ s.
Definition remove (x : nat) (s : gset nat) : gset nat := s ∖ {[x]}.
Definition contains (x : nat) (s : gset nat) : bool := bool_decide (x ∈ s).
Definition size (s : gset nat) : nat := size s.
Definition empty (s : gset nat) : bool := bool_decide (s = ∅).
Definition reset : gset nat := ∅.
Definition elem_at (s : gset nat) (k : nat) : nat := nth k (elements s) 0.
End uint_set.

(** ** Engine state *)

Record config := mk_config {
  m_max_repairs : N;
  m_max_restarts : N;
}.

Record stats := mk_stats {
  m_moves : N;
  m_restarts : N;
}.

(** Lines written to [verbose_stream()]: one per move at verbosity 20
    (picked set, node id, its bit-vector or Boolean value, correctness
    before the move) and one per restart at verbosity 2.  The stream is
    recorded at full verbosity. *)
Inductive verbose_line :=
| move_line (down : bool) (id : nat) (wv : option sls_valuation)
            (bv : option bool) (is_correct : bool)
| restart_line (restarts : N) (repair_down repair_up : nat).

(** Parameters read by [updt_params] through [sls_params]. *)
Record sls_params := mk_params {
  max_restarts : N;
  random_seed : N;
}.

Section Scheduler.
Context {T : Terms} {E : Evaluator} {G : RandomGen} {L : Host}.

Record sls := mk_sls {
  m_eval : sls_eval;
  m_repair_down : gset nat;
  m_repair_up : gset nat;
  m_rand : random_gen;
  m_config : config;
  m_stats : stats;
  m_limit : reslimit;
  m_out : list verbose_line;
}.

Definition with_eval (st : sls) (ev : sls_eval) : sls :=
  mk_sls ev (m_repair_down st) (m_repair_up st) (m_rand st) (m_config st)
         (m_stats st) (m_limit st) (m_out st).
Definition with_down (st : sls) (d : gset nat) : sls :=
  mk_sls (m_eval st) d (m_repair_up st) (m_rand st) (m_config st)
         (m_stats st) (m_limit st) (m_out st).
Definition with_up (st : sls) (u : gset nat) : sls :=
  mk_sls (m_eval st) (m_repair_down st) u (m_rand st) (m_config st)
         (m_stats st) (m_limit st) (m_out st).
Definition with_rand (st : sls) (r : random_gen) : sls :=
  mk_sls (m_eval st) (m_repair_down st) (m_repair_up st) r (m_config st)
         (m_stats st) (m_limit st) (m_out st).
Definition with_config (st : sls) (c : config) : sls :=
  mk_sls (m_eval st) (m_repair_down st) (m_repair_up st) (m_rand st) c
         (m_stats st) (m_limit st) (m_out st).
Definition with_stats (st : sls) (s : stats) : sls :=
  mk_sls (m_eval st) (m_repair_down st) (m_repair_up st) (m_rand st)
         (m_config st) s (m_limit st) (m_out st).
Definition with_limit (st : sls) (l : reslimit) : sls :=
  mk_sls (m_eval st) (m_repair_down st) (m_repair_up st) (m_rand st)
         (m_config st) (m_stats st) l (m_out st).
Definition verbose (st : sls) (ln : verbose_line) : sls :=
  mk_sls (m_eval st) (m_repair_down st) (m_repair_up st) (m_rand st)
         (m_config st) (m_stats st) (m_limit st) (m_out st ++ [ln]).

(** Modelled from the spec: the bounded draw [m_rand(n)] of the random
    generator (declared outside this file) picks an index in [0, n); it
    is the raw draw reduced modulo [n]. *)
Definition rand_below (n : nat) (r : random_gen) : nat * random_gen :=
  let '(x, r') := rand_draw r in (x mod n, r').

(** *** [sls::eval_is_correct] *)
Definition eval_is_correct (ev : sls_eval) (e : expr) : bool :=
  if negb (can_eval1 ev e) then false
  else if is_bool e then bool_decide (bval0 ev e = bval1 ev e)
  else if is_bv e then valuation_eq (wval0 ev e) (wval1 ev e)
  else (* UNREACHABLE(); *) false.

(** *** [sls::init_repair] *)

(** First loop: every assertion whose current value is false is set to
    true and queued for downward repair. *)
Fixpoint init_repair_assertions (es : list expr) (ev : sls_eval)
         (down : gset nat) : sls_eval * gset nat :=
  match es with
  | [] => (ev, down)
  | e :: es' =>
      if negb (bval0 ev e)
      then init_repair_assertions es' (eval_set ev e true)
                                  (uint_set.insert (get_id e) down)
      else init_repair_assertions es' ev down
  end.

(** Second loop: every non-null term that is not correct is queued. *)
Fixpoint init_repair_terms (ts : list (option expr)) (ev : sls_eval)
         (down : gset nat) : gset nat :=
  match ts with
  | [] => down
  | None :: ts' => init_repair_terms ts' ev down
  | Some t :: ts' =>
      if negb (eval_is_correct ev t)
      then init_repair_terms ts' ev (uint_set.insert (get_id t) down)
      else init_repair_terms ts' ev down
  end.

Definition init_repair (st : sls) : sls :=
  let '(ev, down) :=
    init_repair_assertions assertions (m_eval st) uint_set.reset in
  let down := init_repair_terms terms ev down in
  with_up (with_down (with_eval st ev) down) uint_set.reset.

(** *** [sls::init_eval] *)
Definition init_eval {R : Type}
           (eval : sls_eval → expr → nat → R → bool * R) (w : R)
           (st : sls) : sls * R :=
  let '(ev, w') := eval_init_eval (m_eval st) assertions eval w in
  let ev := eval_init_fixed ev assertions in
  (init_repair (with_eval st ev), w').

(** *** [sls::reinit_eval] *)

(** The lambda [should_keep]. *)
Definition should_keep (r : random_gen) : bool * random_gen :=
  let '(x, r') := rand_draw r in (bool_decide (98 ≤ x mod 100), r').

(** [m_rand() % 2 == 0]. *)
Definition random_bit (r : random_gen) : bool * random_gen :=
  let '(x, r') := rand_draw r in (bool_decide (x mod 2 = 0), r').

(** The lambda [eval] handed to the evaluator: [ev] is [m_eval] as the
    closure sees it when called, [r] is [m_rand]. *)
Definition reinit_oracle (ev : sls_eval) (e : expr) (i : nat)
           (r : random_gen) : bool * random_gen :=
  if is_bool e then
    if is_fixed0 ev e then (bval0 ev e, r)
    else
      let '(keep, r1) := should_keep r in
      if keep then (bval0 ev e, r1) else random_bit r1
  else if is_bv e then
    let w := wval0 ev e in
    if get (fixed w) i then (get (bits w) i, r)
    else
      let '(keep, r1) := should_keep r in
      if keep then (get (bits w) i, r1) else random_bit r1
  else random_bit r.

Definition reinit_eval (st : sls) : sls :=
  let '(ev, r) :=
    eval_init_eval (m_eval st) assertions reinit_oracle (m_rand st) in
  init_repair (with_rand (with_eval st ev) r).

(** *** [sls::next_to_repair] *)
Definition next_to_repair (st : sls) : (bool * option expr) * sls :=
  if negb (uint_set.empty (m_repair_down st)) then
    let '(index, r) :=
      rand_below (uint_set.size (m_repair_down st)) (m_rand st) in
    let e := term (uint_set.elem_at (m_repair_down st) index) in
    ((negb (uint_set.empty (m_repair_down st)), Some e), with_rand st r)
  else if negb (uint_set.empty (m_repair_up st)) then
    let '(index, r) :=
      rand_below (uint_set.size (m_repair_up st)) (m_rand st) in
    let e := term (uint_set.elem_at (m_repair_up st) index) in
    ((negb (uint_set.empty (m_repair_down st)), Some e), with_rand st r)
  else ((negb (uint_set.empty (m_repair_down st)), None), st).

(** *** [sls::try_repair_down], the overload on a node and a child index *)
Definition insert_parents (ps : list expr) (up : gset nat) : gset nat :=
  foldl (λ u p, uint_set.insert (get_id p) u) up ps.

Definition try_repair_down_arg (e : expr) (i : nat) (st : sls)
  : bool * sls :=
  let child := get_arg e i in
  let '(was_repaired, ev) := try_repair (m_eval st) e i in
  let st := with_eval st ev in
  if was_repaired then
    let st :=
      with_down st (uint_set.insert (get_id child) (m_repair_down st)) in
    let st :=
      with_up st (insert_parents (parents child) (m_repair_up st)) in
    (was_repaired, st)
  else (was_repaired, st).

(** *** [sls::try_repair_down], the overload on a node alone *)

(** The loop over [i]: [true] when some child was repaired (the function
    returns from inside the loop). *)
Fixpoint try_repair_down_loop (e : expr) (n s : nat) (idx : list nat)
         (st : sls) : bool * sls :=
  match idx with
  | [] => (false, st)
  | i :: idx' =>
      let '(ok, st') := try_repair_down_arg e ((i + s) mod n) st in
      if ok then (true, st') else try_repair_down_loop e n s idx' st'
  end.

Definition try_repair_down (e : expr) (st : sls) : sls :=
  let n := get_num_args e in
  let '(returned, st) :=
    if bool_decide (0 < n) then
      let '(s, r) := rand_below n (m_rand st) in
      try_repair_down_loop e n s (seq 0 n) (with_rand st r)
    else (false, st) in
  if returned then st
  else
    let st :=
      with_down st (uint_set.remove (get_id e) (m_repair_down st)) in
    with_up st (uint_set.insert (get_id e) (m_repair_up st)).

(** *** [sls::try_repair_up] *)
Definition try_repair_up (e : expr) (st : sls) : sls :=
  let st := with_up st (uint_set.remove (get_id e) (m_repair_up st)) in
  if is_assertion e then
    with_down st (uint_set.insert (get_id e) (m_repair_down st))
  else
    let st := with_eval st (repair_up (m_eval st) e) in
    with_up st (insert_parents (parents e) (m_repair_up st)).

(** *** [sls::search] *)

(** One pass through the loop of [search] once [n++ < m_max_repairs]
    holds: either the function returns, or the loop goes on. *)
Inductive iteration :=
| returns (res : lbool) (st : sls)
| continues (st : sls).

Definition search_iteration (st : sls) : iteration :=
  let '(ok, lim) := inc (m_limit st) in
  let st := with_limit st lim in
  if ok then
    let st :=
      with_stats st (mk_stats (incr32 (m_moves (m_stats st)))
                              (m_restarts (m_stats st))) in
    let '((down, e), st) := next_to_repair st in
    match e with
    | None => returns l_true st
    | Some e =>
        let is_correct := eval_is_correct (m_eval st) e in
        let st :=
          verbose st
            (move_line down (get_id e)
               (if is_bv e then Some (wval0 (m_eval st) e) else None)
               (if is_bool e then Some (bval0 (m_eval st) e) else None)
               is_correct) in
        if is_correct then
          if down then
            continues
              (with_down st
                 (uint_set.remove (get_id e) (m_repair_down st)))
          else
            continues
              (with_up st (uint_set.remove (get_id e) (m_repair_up st)))
        else if down then continues (try_repair_down e st)
        else continues (try_repair_up e st)
    end
  else returns l_undef st.

(** The loop, by recursion on the moves left, [m_max_repairs - n]. *)
Fixpoint search_loop (left : nat) (st : sls) : lbool * sls :=
  match left with
  | 0 => (l_undef, st)
  | S left' =>
      match search_iteration st with
      | returns res st' => (res, st')
      | continues st' => search_loop left' st'
      end
  end.

Definition search (st : sls) : lbool * sls :=
  search_loop (N.to_nat (m_max_repairs (m_config st))) st.

(** *** [sls::trace] *)
Definition trace (st : sls) : sls :=
  verbose st
    (restart_line (m_restarts (m_stats st))
                  (uint_set.size (m_repair_down st))
                  (uint_set.size (m_repair_up st))).

(** *** [sls::operator()] *)

(** The do-while loop; [fuel] bounds the number of passes. *)
Fixpoint restart_loop (fuel : nat) (st : sls) : option (lbool * sls) :=
  match fuel with
  | 0 => None
  | S fuel' =>
      let '(res, st) := search st in
      if bool_decide (res ≠ l_undef) then Some (res, st)
      else
        let st := trace st in
        let st := reinit_eval st in
        let '(ok, lim) := inc (m_limit st) in
        let st := with_limit st lim in
        if ok then
          let restarts := m_restarts (m_stats st) in
          let st :=
            with_stats st (mk_stats (m_moves (m_stats st))
                                    (incr32 restarts)) in
          if bool_decide (restarts < m_max_restarts (m_config st))%N
          then restart_loop fuel' st
          else Some (res, st)
        else Some (res, st)
  end.

Definition operator_call (st : sls) : option (lbool * sls) :=
  let st := with_stats st (mk_stats 0 0) in
  restart_loop (S (N.to_nat (m_max_restarts (m_config st)))) st.

(** *** [sls::updt_params] *)
Definition updt_params (p : sls_params) (st : sls) : sls :=
  let st :=
    with_config st
      (mk_config (m_max_repairs (m_config st)) (max_restarts p)) in
  with_rand st (set_seed (random_seed p)).

(** ** Notions used to state the properties *)

(** The state after [j] full passes through the loop of [search], when
    none of them returned. *)
Fixpoint moves_done (j : nat) (st : sls) : option sls :=
  match j with
  | 0 => Some st
  | S j' =>
      match search_iteration st with
      | continues st' => moves_done j' st'
      | returns _ _ => None
      end
  end.

(** [attempts_fail e idx ev ev']: calling [try_repair(e, i)] for the child
    indices [i] of [idx] in turn, from evaluator state [ev], returns false
    each time and leaves the evaluator in [ev']. *)
Inductive attempts_fail (e : expr) : list nat → sls_eval → sls_eval → Prop :=
| attempts_nil ev : attempts_fail e [] ev ev
| attempts_cons i idx ev ev' ev'' :
    try_repair ev e i = (false, ev') →
    attempts_fail e idx ev' ev'' →
    attempts_fail e (i :: idx) ev ev''.

(** The child indices [(s + i) mod n] for [i = 0 .. n-1]. *)
Definition cyclic_order (s n : nat) : list nat :=
  map (λ i, (s + i) mod n) (seq 0 n).

(** What the spec words as "leaving e's own set membership unchanged"
    between two states. *)
Definition membership_unchanged (e : expr) (st st' : sls) : Prop :=
  (get_id e ∈ m_repair_down st' ↔ get_id e ∈ m_repair_down st) ∧
  (get_id e ∈ m_repair_up st' ↔ get_id e ∈ m_repair_up st).

(** The evaluator's contract for [set(e, v)]: it overwrites the current
    Boolean value of the node with id [e->get_id()] and of no other. *)
Definition set_overwrites : Prop :=
  ∀ (ev : sls_eval) (a : expr) (v : bool) (b : expr),
    bval0 (eval_set ev a v) b =
    if bool_decide (get_id a = get_id b) then v else bval0 ev b.

(** The content of down after [init_repair] as the spec words it: the
    assertions that were false, and the internal nodes that can be
    evaluated and are not correct. *)
Definition down_as_specified (st st' : sls) : Prop :=
  ∀ id : nat,
    id ∈ m_repair_down st' ↔
    (∃ a, a ∈ assertions ∧ get_id a = id ∧ bval0 (m_eval st) a = false)
    ∨ (∃ t, Some t ∈ terms ∧ get_id t = id ∧
            can_eval1 (m_eval st') t = true ∧
            eval_is_correct (m_eval st') t = false).

(** A configuration is valid, in the spec's words, when its options are
    positive. *)
Definition valid_params (p : sls_params) : Prop :=
  (0 < max_restarts p)%N ∧ (0 < random_seed p)%N.

(** [updt_params] would reject a configuration if it left the engine as it
    found it. *)
Definition rejects (p : sls_params) (st : sls) : Prop := updt_params p st = st.

(** The fields of the engine that only the drivers [search] and
    [operator()] write. *)
Definition driver_fields (st : sls)
  : config * stats * reslimit * list verbose_line :=
  (m_config st, m_stats st, m_limit st, m_out st).

(** The ids of a list of nodes, as a set. *)
Definition ids_of (ps : list expr) : gset nat := list_to_set (map get_id ps).

(** The restart numbers reported by the restart lines of a stream. *)
Fixpoint restart_numbers (out : list verbose_line) : list N :=
  match out with
  | [] => []
  | restart_line k _ _ :: out' => k :: restart_numbers out'
  | move_line _ _ _ _ _ :: out' => restart_numbers out'
  end.

(** Every restart line of a run reports a counter that was incremented
    before the line was written. *)
Definition traces_after_increment (st : sls) : Prop :=
  ∀ res st', operator_call st = Some (res, st') →
             ∀ k, k ∈ restart_numbers (m_out st') → (1 ≤ k)%N.


End Scheduler.


(** ** A small problem instance

    The assertions [(not x)] and [z] over Boolean constants [x], [z], with
    a 2-bit constant [y], an application [(f x)] of an uninterpreted
    predicate and a constant [u] of an uninterpreted sort; the evaluator
    can evaluate neither of the last two.  Node ids: 0 is [x], 1 is [y],
    2 is [(not x)], 3 is [(f x)], 4 is an unused slot of the term vector,
    5 is [z], 6 is [u].  It serves the concrete executions below. *)
Module sample.

Definition sample_terms : Terms := {|
  expr := nat;
  get_id := λ e, e;
  get_num_args := λ e, match e with 2 | 3 => 1 | _ => 0 end;
  get_arg := λ e i, 0;
  is_bool := λ e, negb (e =? 1) && negb (e =? 6);
  is_bv := λ e, e =? 1;
  assertions := [2; 5];
  terms := [Some 0; Some 1; Some 2; Some 3; None; Some 5; Some 6];
  term := λ id, id;
  parents := λ e, match e with 0 => [2; 3] | _ => [] end;
  is_assertion := λ e, (e =? 2) || (e =? 5);
|}.

#[local] Existing Instance sample_terms.

(** Evaluator state: the ids of the Boolean nodes whose current value is
    true, and the bits of [y]; bit 1 of [y] and the value of [z] are
    fixed. *)
Record values := mk_values {
  trues : gset nat;
  ybits : N;
}.

Definition cur (s : values) (e : nat) : bool := bool_decide (e ∈ trues s).
Definition assign (s : values) (e : nat) (v : bool) : values :=
  mk_values (if v then {[e]} ∪ trues s else trues s ∖ {[e]}) (ybits s).
Definition recomputed (s : values) (e : nat) : bool :=
  match e with 2 => negb (cur s 0) | _ => cur s e end.
Definition bit_of (b : bool) : N := if b then 1%N else 0%N.

Definition sample_eval : Evaluator := {|
  sls_eval := values;
  bval0 := cur;
  bval1 := recomputed;
  wval0 := λ s e, mk_valuation 2 (ybits s) 2;
  wval1 := λ s e, mk_valuation 2 (ybits s) 2;
  is_fixed0 := λ s e, e =? 5;
  can_eval1 := λ s e, negb (e =? 3) && negb (e =? 6);
  eval_set := assign;
  try_repair := λ s e i,
    if e =? 2 then
      if bool_decide (cur s 0 = negb (cur s 2)) then (false, s)
      else (true, assign s 0 (negb (cur s 2)))
    else (false, s);
  repair_up := λ s e, assign s e (recomputed s e);
  eval_init_eval := λ R s es oracle w,
    let '(bx, w) := oracle s 0 0 w in
    let s := assign s 0 bx in
    let '(y0, w) := oracle s 1 0 w in
    let '(y1, w) := oracle s 1 1 w in
    let s := mk_values (trues s) (bit_of y0 + 2 * bit_of y1)%N in
    let '(bz, w) := oracle s 5 0 w in
    let s := assign s 5 bz in
    (assign s 2 (recomputed s 2), w);
  eval_init_fixed := λ s es, s;
|}.

(** A counter as generator: draws are consecutive numbers from the seed. *)
Definition sample_rand : RandomGen := {|
  random_gen := nat;
  rand_draw := λ r, (r, S r);
  set_seed := N.to_nat;
|}.

(** A resource limit that permits a given number of polls. *)
Definition sample_host : Host := {|
  reslimit := nat;
  inc := λ l, match l with 0 => (false, 0) | S l' => (true, l') end;
|}.

Definition state := @sls sample_terms sample_eval sample_rand sample_host.

(** [x] true, [y = 2], [(not x)] false, [(f x)] false, [z] true. *)
Definition values0 : values := mk_values {[0; 5]} 2.

Definition start (ev : values) (d u : gset nat) (r : nat) (c : config)
           (l : nat) : state :=
  @mk_sls sample_terms sample_eval sample_rand sample_host
          ev d u r c (mk_stats 0 0) l [].

End sample.


(** ** Model extraction and display *)

(** What [get_model] and [display] use besides the scheduler's
    interfaces: [is_uninterp_const] and the declaration of an application,
    and the evaluator's [sort_assertions], which fills and returns its
    list of sorted terms ([sorted_reset] is the [terms.reset()] applied to
    that list afterwards). *)
Class ModelSupport `{Evaluator} := {
  func_decl : Type;
  get_decl : expr → func_decl;
  is_uninterp_const : expr → bool;
  sort_assertions : sls_eval → list expr → list expr * sls_eval;
  sorted_reset : sls_eval → sls_eval;
}.

(** The value registered for a constant: [m.mk_bool_val(b)] or
    [bv.mk_numeral(n, bw)]. *)
Inductive model_value :=
| mk_bool_val (b : bool)
| mk_numeral (n : N) (width : nat).

(** A line of [display]: the node id, the marks [f], [d] and [u], and the
    value printed (a valuation for a bit-vector node, else a Boolean for a
    Boolean node, else nothing). *)
Record display_line := mk_display_line {
  line_id : nat;
  mark_f : bool;
  mark_d : bool;
  mark_u : bool;
  line_wval : option sls_valuation;
  line_bval : option bool;
}.

Section ModelOutput.
Context {T : Terms} {E : Evaluator} {G : RandomGen} {L : Host}
        {M : ModelSupport}.

(** [v.get_value(v.bits, n)]: the number the bits denote. *)
Definition get_value (v : sls_valuation) : N := bits v.

(** The loop of [get_model]; the model is the list of [register_decl]
    calls, in order. *)
Fixpoint get_model_loop (ev : sls_eval) (ts : list expr)
         (mdl : list (func_decl * model_value))
  : list (func_decl * model_value) :=
  match ts with
  | [] => mdl
  | e :: ts' =>
      if negb (is_uninterp_const e) then get_model_loop ev ts' mdl
      else
        let f := get_decl e in
        if is_bool e then
          get_model_loop ev ts' (mdl ++ [(f, mk_bool_val (bval0 ev e))])
        else if is_bv e then
          let v := wval0 ev e in
          get_model_loop ev ts' (mdl ++ [(f, mk_numeral (get_value v) (bw v))])
        else get_model_loop ev ts' mdl
  end.

(** *** [sls::get_model] *)
Definition get_model (st : sls) : list (func_decl * model_value) * sls :=
  let '(ts, ev) := sort_assertions (m_eval st) assertions in
  let mdl := get_model_loop ev ts [] in
  (mdl, with_eval st (sorted_reset ev)).

(** *** [sls::display] *)
Definition display_term (st : sls) (ev : sls_eval) (e : expr) : display_line :=
  mk_display_line
    (get_id e)
    (is_fixed0 ev e)
    (uint_set.contains (get_id e) (m_repair_down st))
    (uint_set.contains (get_id e) (m_repair_up st))
    (if is_bv e then Some (wval0 ev e) else None)
    (if is_bv e then None
     else if is_bool e then Some (bval0 ev e) else None).

Definition display (st : sls) : list display_line * sls :=
  let '(ts, ev) := sort_assertions (m_eval st) assertions in
  (map (display_term st ev) ts, with_eval st (sorted_reset ev)).

(** The resource limit after one more poll. *)
Definition poll (l : reslimit) : reslimit := (inc l).2.

(** A line written by a move of [search]. *)
Definition is_move_line (ln : verbose_line) : Prop :=
  match ln with move_line _ _ _ _ _ => True | restart_line _ _ _ => False end.

End ModelOutput.

(** Model support for the sample instance: the constants are the nodes
    0, 1, 5 and 6, a declaration is named by the node id, and the sorted
    terms are all nodes in the order of their ids, children first. *)
Definition sample_models : @ModelSupport sample.sample_terms sample.sample_eval :=
  @Build_ModelSupport sample.sample_terms sample.sample_eval
    nat
    (λ e : nat, e)
    (λ e : nat, match e with 0 | 1 | 5 | 6 => true | _ => false end)
    (λ (s : sample.values) (es : list nat), ([0; 1; 2; 3; 5; 6], s))
    (λ s : sample.values, s).

(** * Properties *)

(** ** The repair sets *)

Lemma uint_set_elem_of_insert (x y : nat) (s : gset nat) :
  y ∈ uint_set.insert x s ↔ y = x ∨ y ∈ s.
Proof. unfold uint_set.insert. set_solver. Qed.

Lemma uint_set_elem_of_remove (x y : nat) (s : gset nat) :
  y ∈ uint_set.remove x s ↔ y ∈ s ∧ y ≠ x.
Proof. unfold uint_set.remove. set_solver. Qed.

Lemma uint_set_empty_true (s : gset nat) : uint_set.empty s = true ↔ s = ∅.
Proof. unfold uint_set.empty. apply bool_decide_eq_true. Qed.

Lemma uint_set_empty_false (s : gset nat) : uint_set.empty s = false ↔ s ≠ ∅.
Proof. unfold uint_set.empty. apply bool_decide_eq_false. Qed.

Lemma uint_set_size_pos (s : gset nat) : s ≠ ∅ → 0 < uint_set.size s.
Proof.
  intros Hne. unfold uint_set.size.
  destruct (decide (size s = 0)) as [Hz|Hz]; [|lia].
  apply size_empty_inv in Hz. exfalso. apply Hne. by apply leibniz_equiv.
Qed.

(** An index below the size names a member. *)
Lemma uint_set_elem_at_in (s : gset nat) (k : nat) :
  k < uint_set.size s → uint_set.elem_at s k ∈ s.
Proof.
  unfold uint_set.size, uint_set.elem_at, size, set_size. simpl. intros Hk.
  apply elem_of_elements, list_elem_of_In, nth_In. exact Hk.
Qed.

Section Properties.
Context {T : Terms} {E : Evaluator} {G : RandomGen} {L : Host}.

(** ** Draws *)

Lemma rand_below_lt (n : nat) (r : random_gen) :
  0 < n → (rand_below n r).1 < n.
Proof.
  intros Hn. unfold rand_below. destruct (rand_draw r) as [x r']. simpl.
  apply Nat.mod_upper_bound. lia.
Qed.

Lemma insert_parents_spec (ps : list expr) (up : gset nat) :
  insert_parents ps up = ids_of ps ∪ up.
Proof.
  unfold insert_parents, ids_of. revert up.
  induction ps as [|p ps IH]; intros up; simpl.
  - set_solver.
  - rewrite IH. unfold uint_set.insert. set_solver.
Qed.

Lemma elem_of_ids_of (ps : list expr) (p : expr) :
  p ∈ ps → get_id p ∈ ids_of ps.
Proof.
  intros Hp. unfold ids_of. apply elem_of_list_to_set, list_elem_of_fmap.
  by exists p.
Qed.

(** ** [next_to_repair] *)

(** C4: next_to_repair draws its node from down whenever down is non-empty
    (at the index the generator gives, which is below the size of down, so
    the id is a member); it draws from up only when down is empty and up is
    not; it returns no node exactly when both sets are empty; and the flag
    of the pair is true exactly when the node was drawn from down.  Only
    the generator changes. *)
Theorem next_to_repair_draws (st : sls) :
  let k_down := (rand_below (uint_set.size (m_repair_down st)) (m_rand st)).1 in
  let k_up := (rand_below (uint_set.size (m_repair_up st)) (m_rand st)).1 in
  let flag := (next_to_repair st).1.1 in
  let e := (next_to_repair st).1.2 in
  (m_repair_down st ≠ ∅ ∧
     k_down < uint_set.size (m_repair_down st) ∧
     uint_set.elem_at (m_repair_down st) k_down ∈ m_repair_down st ∧
     e = Some (term (uint_set.elem_at (m_repair_down st) k_down)) ∧
     flag = true
   ∨ m_repair_down st = ∅ ∧ m_repair_up st ≠ ∅ ∧
     k_up < uint_set.size (m_repair_up st) ∧
     uint_set.elem_at (m_repair_up st) k_up ∈ m_repair_up st ∧
     e = Some (term (uint_set.elem_at (m_repair_up st) k_up)) ∧
     flag = false
   ∨ m_repair_down st = ∅ ∧ m_repair_up st = ∅ ∧ e = None ∧ flag = false)
  ∧ (e = None ↔ m_repair_down st = ∅ ∧ m_repair_up st = ∅)
  ∧ (flag = true ↔ m_repair_down st ≠ ∅)
  ∧ m_repair_down (next_to_repair st).2 = m_repair_down st
  ∧ m_repair_up (next_to_repair st).2 = m_repair_up st
  ∧ m_eval (next_to_repair st).2 = m_eval st.
Proof.
  cbv zeta. unfold next_to_repair.
  destruct (uint_set.empty (m_repair_down st)) eqn:Hd; simpl.
  - apply uint_set_empty_true in Hd as Hd'.
    destruct (uint_set.empty (m_repair_up st)) eqn:Hu; simpl.
    + apply uint_set_empty_true in Hu as Hu'. naive_solver.
    + apply uint_set_empty_false in Hu as Hu'.
      pose proof (rand_below_lt _ (m_rand st) (uint_set_size_pos _ Hu')) as Hk.
      pose proof (uint_set_elem_at_in _ _ Hk) as Hin.
      destruct (rand_below (uint_set.size (m_repair_up st)) (m_rand st))
        as [k r] eqn:Hr; simpl in *.
      naive_solver.
  - apply uint_set_empty_false in Hd as Hd'.
    pose proof (rand_below_lt _ (m_rand st) (uint_set_size_pos _ Hd')) as Hk.
    pose proof (uint_set_elem_at_in _ _ Hk) as Hin.
    destruct (rand_below (uint_set.size (m_repair_down st)) (m_rand st))
      as [k r] eqn:Hr; simpl in *.
    naive_solver.
Qed.

(** ** Downward repair *)

Lemma try_repair_down_arg_true (e : expr) (i : nat) (st st' : sls) :
  try_repair_down_arg e i st = (true, st') →
  try_repair (m_eval st) e i = (true, m_eval st') ∧
  st' = with_up
          (with_down (with_eval st (m_eval st'))
             ({[get_id (get_arg e i)]} ∪ m_repair_down st))
          (ids_of (parents (get_arg e i)) ∪ m_repair_up st).
Proof.
  unfold try_repair_down_arg.
  destruct (try_repair (m_eval st) e i) as [[] ev] eqn:Hr; [|done].
  intros [= <-]. simpl. rewrite insert_parents_spec. done.
Qed.

Lemma try_repair_down_arg_false (e : expr) (i : nat) (st st' : sls) :
  try_repair_down_arg e i st = (false, st') →
  try_repair (m_eval st) e i = (false, m_eval st') ∧
  st' = with_eval st (m_eval st').
Proof.
  unfold try_repair_down_arg.
  destruct (try_repair (m_eval st) e i) as [[] ev] eqn:Hr; [done|].
  intros [= <-]. done.
Qed.

(** The loop of [try_repair_down]: failing attempts up to the first
    success, whose effects are the only change to the sets. *)
Lemma try_repair_down_loop_spec (e : expr) (n s : nat) (idx : list nat)
      (st : sls) (b : bool) (st' : sls) :
  try_repair_down_loop e n s idx st = (b, st') →
  if b then
    ∃ pre i post ev1,
      idx = pre ++ i :: post ∧
      attempts_fail e (map (λ i, (i + s) mod n) pre) (m_eval st) ev1 ∧
      try_repair ev1 e ((i + s) mod n) = (true, m_eval st') ∧
      st' = with_up
              (with_down (with_eval st (m_eval st'))
                 ({[get_id (get_arg e ((i + s) mod n))]} ∪ m_repair_down st))
              (ids_of (parents (get_arg e ((i + s) mod n))) ∪ m_repair_up st)
  else
    attempts_fail e (map (λ i, (i + s) mod n) idx) (m_eval st) (m_eval st') ∧
    st' = with_eval st (m_eval st').
Proof.
  revert st. induction idx as [|i idx IH]; intros st; simpl.
  - intros [= <- <-]. split; [constructor | by destruct st].
  - destruct (try_repair_down_arg e ((i + s) mod n) st) as [[] st1] eqn:Ha.
    + intros [= <- <-].
      apply try_repair_down_arg_true in Ha as [Hr Hst].
      exists [], i, idx, (m_eval st). split_and!; try done. constructor.
    + intros Hloop. apply try_repair_down_arg_false in Ha as [Hr Hst].
      specialize (IH st1 Hloop). destruct b.
      * destruct IH as (pre & j & post & ev1 & -> & Hpre & Hj & ->).
        exists (i :: pre), j, post, ev1. split_and!; try done.
        -- simpl. econstructor; eauto.
        -- rewrite Hst. done.
      * destruct IH as [Hfail ->]. split.
        -- econstructor; eauto.
        -- rewrite Hst. done.
Qed.

Lemma cyclic_order_alt (s n : nat) :
  map (λ i, (i + s) mod n) (seq 0 n) = cyclic_order s n.
Proof.
  unfold cyclic_order. apply map_ext. intros i. by rewrite Nat.add_comm.
Qed.

Lemma cyclic_order_lt (s n k c : nat) :
  cyclic_order s n !! k = Some c → k < n ∧ c < n ∧ c = (s + k) mod n.
Proof.
  unfold cyclic_order. rewrite list_lookup_fmap. intros Hk.
  destruct (seq 0 n !! k) as [i|] eqn:Hi; [|done].
  apply lookup_seq in Hi as [-> Hlt]. simpl in Hk. injection Hk as <-.
  split_and!; try done. apply Nat.mod_upper_bound. lia.
Qed.

(** The whole of [try_repair_down] on a node with children. *)
Lemma try_repair_down_spec (e : expr) (st : sls) :
  0 < get_num_args e →
  let n := get_num_args e in
  let s := (rand_below n (m_rand st)).1 in
  let st' := try_repair_down e st in
  m_rand st' = (rand_below n (m_rand st)).2 ∧
  ((∃ k c ev1,
       cyclic_order s n !! k = Some c ∧
       attempts_fail e (take k (cyclic_order s n)) (m_eval st) ev1 ∧
       try_repair ev1 e c = (true, m_eval st') ∧
       m_repair_down st' = {[get_id (get_arg e c)]} ∪ m_repair_down st ∧
       m_repair_up st' = ids_of (parents (get_arg e c)) ∪ m_repair_up st)
   ∨ (attempts_fail e (cyclic_order s n) (m_eval st) (m_eval st') ∧
      m_repair_down st' = m_repair_down st ∖ {[get_id e]} ∧
      m_repair_up st' = {[get_id e]} ∪ m_repair_up st)).
Proof.
  intros Hn. cbv zeta. unfold try_repair_down.
  rewrite bool_decide_eq_true_2 by done.
  destruct (rand_below (get_num_args e) (m_rand st)) as [s r] eqn:Hrand.
  simpl.
  destruct (try_repair_down_loop e (get_num_args e) s
              (seq 0 (get_num_args e)) (with_rand st r)) as [b st1] eqn:Hloop.
  apply try_repair_down_loop_spec in Hloop. destruct b.
  - destruct Hloop as (pre & i & post & ev1 & Hidx & Hpre & Hi & ->).
    simpl. split; [done|]. left.
    exists (length pre), ((i + s) mod get_num_args e), ev1.
    rewrite <- cyclic_order_alt, Hidx. rewrite map_app. simpl.
    split_and!; try done.
    + rewrite lookup_app_r by (by rewrite length_map).
      by rewrite length_map, Nat.sub_diag.
    + rewrite take_app_length'; [done | by rewrite length_map].
  - destruct Hloop as [Hfail ->]. simpl. split; [done|]. right.
    rewrite <- cyclic_order_alt. done.
Qed.

(** The same function on a node without children. *)
Lemma try_repair_down_no_args (e : expr) (st : sls) :
  get_num_args e = 0 →
  try_repair_down e st =
  with_up (with_down st (uint_set.remove (get_id e) (m_repair_down st)))
          (uint_set.insert (get_id e) (m_repair_up st)).
Proof.
  intros Hn. unfold try_repair_down. rewrite Hn.
  rewrite bool_decide_eq_false_2 by lia. done.
Qed.

(** C5 (amended): on a node [e] with [n >= 1] children, try_repair_down
    draws a start [s < n] from the generator and tries the children in the
    order [(s + i) mod n], [i = 0 .. n-1].  It stops at the first child
    whose repair succeeds; then that child is inserted into down, the
    child's parents are inserted into up, and nothing is removed from
    either set, so [e] stays in down.  If no child was repairable, [e] is
    removed from down and inserted into up. *)
Theorem try_repair_down_cyclic (e : expr) (st : sls) :
  0 < get_num_args e →
  let n := get_num_args e in
  let s := (rand_below n (m_rand st)).1 in
  let st' := try_repair_down e st in
  s < n ∧
  m_rand st' = (rand_below n (m_rand st)).2 ∧
  ((∃ k c ev1,
       cyclic_order s n !! k = Some c ∧ c = (s + k) mod n ∧ k < n ∧
       attempts_fail e (take k (cyclic_order s n)) (m_eval st) ev1 ∧
       try_repair ev1 e c = (true, m_eval st') ∧
       m_repair_down st' = {[get_id (get_arg e c)]} ∪ m_repair_down st ∧
       m_repair_up st' = ids_of (parents (get_arg e c)) ∪ m_repair_up st ∧
       (get_id e ∈ m_repair_down st → get_id e ∈ m_repair_down st'))
   ∨ (attempts_fail e (cyclic_order s n) (m_eval st) (m_eval st') ∧
      m_repair_down st' = m_repair_down st ∖ {[get_id e]} ∧
      m_repair_up st' = {[get_id e]} ∪ m_repair_up st ∧
      (get_id e ∉ m_repair_down st') ∧ get_id e ∈ m_repair_up st')).
Proof.
  intros Hn. cbv zeta.
  destruct (try_repair_down_spec e st Hn) as [Hrand Hcases].
  split; [by apply rand_below_lt|]. split; [done|].
  destruct Hcases as [(k & c & ev1 & Hk & Hpre & Hc & Hd & Hu)|(Hall & Hd & Hu)].
  - left. exists k, c, ev1.
    destruct (cyclic_order_lt _ _ _ _ Hk) as (Hkn & _ & Hceq).
    split_and!; try done. rewrite Hd. set_solver.
  - right. split_and!; try done.
    + rewrite Hd. set_solver.
    + rewrite Hu. set_solver.
Qed.


(** ** Upward repair *)

Lemma try_repair_up_non_assertion (e : expr) (st : sls) :
  is_assertion e = false →
  try_repair_up e st =
  with_up (with_eval st (repair_up (m_eval st) e))
          (ids_of (parents e) ∪ m_repair_up st ∖ {[get_id e]}).
Proof.
  intros Ha. unfold try_repair_up. rewrite Ha. simpl.
  by rewrite insert_parents_spec.
Qed.

(** C3: a move that changes a node's val0 leaves every direct parent of
    that node in up.  Downward: when [try_repair(e, i)] returns true, the
    child is in down and each of its parents is in up on return from
    try_repair_down(e, i), and try_repair_down(e) returns at once with that
    state unless every attempt failed.  Upward: when try_repair_up applies
    [repair_up] to a non-assertion [e], each parent of [e] is in up on
    return. *)
Theorem changed_node_parents_in_up :
  (∀ (e : expr) (i : nat) (st st' : sls),
      try_repair_down_arg e i st = (true, st') →
      try_repair (m_eval st) e i = (true, m_eval st') ∧
      get_id (get_arg e i) ∈ m_repair_down st' ∧
      ∀ p, p ∈ parents (get_arg e i) → get_id p ∈ m_repair_up st')
  ∧ (∀ (e : expr) (st : sls),
      0 < get_num_args e →
      let st' := try_repair_down e st in
      let order :=
        cyclic_order (rand_below (get_num_args e) (m_rand st)).1
                     (get_num_args e) in
      (∃ c ev1,
          c ∈ order ∧
          try_repair ev1 e c = (true, m_eval st') ∧
          get_id (get_arg e c) ∈ m_repair_down st' ∧
          ∀ p, p ∈ parents (get_arg e c) → get_id p ∈ m_repair_up st')
      ∨ attempts_fail e order (m_eval st) (m_eval st'))
  ∧ (∀ (e : expr) (st : sls),
      is_assertion e = false →
      let st' := try_repair_up e st in
      m_eval st' = repair_up (m_eval st) e ∧
      ∀ p, p ∈ parents e → get_id p ∈ m_repair_up st').
Proof.
  split_and!.
  - intros e i st st' Ha.
    apply try_repair_down_arg_true in Ha as [Hr ->]. simpl.
    split_and!; [done | set_solver |].
    intros p Hp. apply elem_of_ids_of in Hp. set_solver.
  - intros e st Hn. cbv zeta.
    destruct (try_repair_down_spec e st Hn) as [_ Hcases].
    destruct Hcases as [(k & c & ev1 & Hk & _ & Hc & Hd & Hu)|(Hall & _)].
    + left. exists c, ev1. split_and!; try done.
      * by eapply list_elem_of_lookup_2.
      * rewrite Hd. set_solver.
      * intros p Hp. apply elem_of_ids_of in Hp. rewrite Hu. set_solver.
    + by right.
  - intros e st Ha. cbv zeta.
    rewrite try_repair_up_non_assertion by done. simpl. split; [done|].
    intros p Hp. apply elem_of_ids_of in Hp. set_solver.
Qed.

(** ** The search loop *)

Lemma next_to_repair_none (st : sls) :
  (next_to_repair st).1.2 = None ↔
  m_repair_down st = ∅ ∧ m_repair_up st = ∅.
Proof.
  unfold next_to_repair.
  destruct (uint_set.empty (m_repair_down st)) eqn:Hd; simpl.
  - apply uint_set_empty_true in Hd.
    destruct (uint_set.empty (m_repair_up st)) eqn:Hu; simpl.
    + apply uint_set_empty_true in Hu. done.
    + apply uint_set_empty_false in Hu.
      destruct (rand_below _ _); simpl. naive_solver.
  - apply uint_set_empty_false in Hd.
    destruct (rand_below _ _); simpl. naive_solver.
Qed.

Lemma next_to_repair_state (st : sls) :
  (next_to_repair st).2 = with_rand st (m_rand (next_to_repair st).2).
Proof.
  unfold next_to_repair.
  destruct (uint_set.empty (m_repair_down st)); simpl.
  - destruct (uint_set.empty (m_repair_up st)); simpl.
    + by destruct st.
    + by destruct (rand_below _ _).
  - by destruct (rand_below _ _).
Qed.

(** What one pass through the loop does, by the poll of the limit and the
    repair sets it starts from. *)
Lemma search_iteration_cases (st : sls) :
  match search_iteration st with
  | returns res st' =>
      res = l_true ∧ (inc (m_limit st)).1 = true ∧
      m_repair_down st = ∅ ∧ m_repair_up st = ∅ ∧
      m_repair_down st' = ∅ ∧ m_repair_up st' = ∅
      ∨ res = l_undef ∧ (inc (m_limit st)).1 = false
  | continues st' =>
      (inc (m_limit st)).1 = true ∧
      ¬ (m_repair_down st = ∅ ∧ m_repair_up st = ∅)
  end.
Proof.
  unfold search_iteration.
  destruct (inc (m_limit st)) as [[] lim]; simpl; [|by right].
  set (st1 := with_stats _ _).
  pose proof (next_to_repair_none st1) as Hnone.
  pose proof (next_to_repair_state st1) as Hst.
  destruct (next_to_repair st1) as [[down [e|]] st2]; simpl in *.
  - assert (¬ (m_repair_down st = ∅ ∧ m_repair_up st = ∅)) as Hne.
    { intros H. by apply Hnone in H. }
    repeat case_match; done.
  - destruct Hnone as [Hnone _]. specialize (Hnone eq_refl) as [Hd Hu].
    left. rewrite Hst. done.
Qed.

Lemma search_loop_true (n : nat) (st : sls) :
  (search_loop n st).1 = l_true ↔
  ∃ j st_j, j < n ∧ moves_done j st = Some st_j ∧
            (inc (m_limit st_j)).1 = true ∧
            m_repair_down st_j = ∅ ∧ m_repair_up st_j = ∅.
Proof.
  revert st. induction n as [|n IH]; intros st; simpl.
  - split; [done|]. intros (j & ? & ? & _). lia.
  - pose proof (search_iteration_cases st) as Hc.
    destruct (search_iteration st) as [res st'|st'] eqn:Hit; simpl.
    + split.
      * intros ->. destruct Hc as [(_ & ? & ? & ? & _)|[? _]]; [|done].
        exists 0, st. split_and!; try done. lia.
      * intros (j & st_j & _ & Hj & Hinc & Hd & Hu).
        destruct j; simpl in Hj.
        -- injection Hj as <-.
           destruct Hc as [(? & _)|[_ ?]]; [done | congruence].
        -- by rewrite Hit in Hj.
    + rewrite IH. split.
      * intros (j & st_j & ? & ? & ? & ? & ?). exists (S j), st_j. simpl.
        rewrite Hit. split_and!; try done. lia.
      * intros (j & st_j & Hlt & Hj & Hinc & Hd & Hu).
        destruct j; simpl in Hj.
        -- injection Hj as <-. destruct Hc as [_ Hne]. by destruct Hne.
        -- rewrite Hit in Hj. exists j, st_j. split_and!; try done. lia.
Qed.

Lemma search_loop_undef (n : nat) (st : sls) :
  (search_loop n st).1 = l_undef ↔
  (∃ st_n, moves_done n st = Some st_n)
  ∨ ∃ j st_j, j < n ∧ moves_done j st = Some st_j ∧
              (inc (m_limit st_j)).1 = false.
Proof.
  revert st. induction n as [|n IH]; intros st; simpl.
  - split; [|done]. intros _. left. by exists st.
  - pose proof (search_iteration_cases st) as Hc.
    destruct (search_iteration st) as [res st'|st'] eqn:Hit; simpl.
    + split.
      * intros ->. destruct Hc as [(? & _)|[_ ?]]; [done|].
        right. exists 0, st. split_and!; try done. lia.
      * intros [[? ?]|(j & st_j & _ & Hj & Hinc)]; [done|].
        destruct j; simpl in Hj.
        -- injection Hj as <-.
           destruct Hc as [(_ & ? & _)|[? _]]; [congruence | done].
        -- by rewrite Hit in Hj.
    + rewrite IH. split.
      * intros [?|(j & st_j & ? & ? & ?)]; [by left|].
        right. exists (S j), st_j. simpl. rewrite Hit.
        split_and!; try done. lia.
      * intros [?|(j & st_j & Hlt & Hj & Hinc)]; [by left|].
        destruct j; simpl in Hj.
        -- injection Hj as <-. destruct Hc as [? _]. congruence.
        -- rewrite Hit in Hj. right. exists j, st_j.
           split_and!; try done. lia.
Qed.

Lemma search_loop_not_false (n : nat) (st : sls) :
  (search_loop n st).1 ≠ l_false.
Proof.
  revert st. induction n as [|n IH]; intros st; simpl; [done|].
  pose proof (search_iteration_cases st) as Hc.
  destruct (search_iteration st) as [res st'|st']; simpl; [|apply IH].
  destruct Hc as [[-> _]|[-> _]]; done.
Qed.

(** C1: search returns l_true exactly when, within the move budget and
    with every poll of the limit so far answered true, next_to_repair
    returns no node, that is, finds both repair sets empty; it returns
    l_undef exactly when the budget of m_max_repairs moves is used up or a
    poll of the limit answers false; it never returns l_false.  On l_true
    both sets are empty in the final state. *)
Theorem search_result (st : sls) :
  let budget := N.to_nat (m_max_repairs (m_config st)) in
  ((search st).1 = l_true ↔
     ∃ j st_j, j < budget ∧ moves_done j st = Some st_j ∧
               (inc (m_limit st_j)).1 = true ∧
               (next_to_repair st_j).1.2 = None ∧
               m_repair_down st_j = ∅ ∧ m_repair_up st_j = ∅)
  ∧ ((search st).1 = l_undef ↔
       (∃ st_n, moves_done budget st = Some st_n)
       ∨ ∃ j st_j, j < budget ∧ moves_done j st = Some st_j ∧
                   (inc (m_limit st_j)).1 = false)
  ∧ (search st).1 ≠ l_false
  ∧ ((search st).1 = l_true →
       m_repair_down (search st).2 = ∅ ∧ m_repair_up (search st).2 = ∅).
Proof.
  cbv zeta. unfold search. split_and!.
  - rewrite search_loop_true. split.
    + intros (j & st_j & ? & ? & ? & ? & ?). exists j, st_j.
      split_and!; try done. by apply next_to_repair_none.
    + intros (j & st_j & ? & ? & ? & _ & ? & ?). by exists j, st_j.
  - apply search_loop_undef.
  - apply search_loop_not_false.
  - generalize (N.to_nat (m_max_repairs (m_config st))) as n.
    intros n. revert st. induction n as [|n IH]; intros st; simpl; [done|].
    pose proof (search_iteration_cases st) as Hc.
    destruct (search_iteration st) as [res st'|st']; simpl; [|apply IH].
    intros ->. destruct Hc as [(_ & _ & _ & _ & ? & ?)|[? _]]; done.
Qed.

(** C10: on a node without children, try_repair_down attempts no child
    repair (the evaluator and the generator are left as they were) and
    moves the node: it is removed from down and inserted into up.  So a
    pass of the search loop that picks such a node from down and finds it
    not correct does exactly that. *)
Theorem try_repair_down_leaf (e : expr) (st : sls) :
  get_num_args e = 0 →
  let st' := try_repair_down e st in
  (m_eval st' = m_eval st ∧ m_rand st' = m_rand st ∧
   m_repair_down st' = m_repair_down st ∖ {[get_id e]} ∧
   m_repair_up st' = {[get_id e]} ∪ m_repair_up st ∧
   (get_id e ∉ m_repair_down st') ∧ get_id e ∈ m_repair_up st')
  ∧ (let polled :=
       with_stats (with_limit st (inc (m_limit st)).2)
                  (mk_stats (incr32 (m_moves (m_stats st)))
                            (m_restarts (m_stats st))) in
     (inc (m_limit st)).1 = true →
     (next_to_repair polled).1 = (true, Some e) →
     eval_is_correct (m_eval st) e = false →
     ∃ st'', search_iteration st = continues st'' ∧
             m_eval st'' = m_eval st ∧
             m_repair_down st'' = m_repair_down st ∖ {[get_id e]} ∧
             m_repair_up st'' = {[get_id e]} ∪ m_repair_up st).
Proof.
  intros Hn. cbv zeta. split.
  - rewrite try_repair_down_no_args by done. simpl.
    unfold uint_set.remove, uint_set.insert.
    split_and!; try done; set_solver.
  - intros Hinc Hpick Hcorrect. unfold search_iteration.
    destruct (inc (m_limit st)) as [ok lim]. simpl in Hinc, Hpick. subst ok.
    set (polled := with_stats _ _) in *.
    pose proof (next_to_repair_state polled) as Hst.
    destruct (next_to_repair polled) as [[down e'] st2].
    simpl in Hpick, Hst. injection Hpick as -> ->.
    rewrite Hst. simpl. rewrite Hcorrect.
    eexists. split; [reflexivity|].
    rewrite try_repair_down_no_args by done. simpl.
    unfold uint_set.remove, uint_set.insert. done.
Qed.

(** X1: try_repair_up on an assertion leaves the evaluator alone: the
    assertion is removed from up and inserted into down, so that downward
    repair starts again from it. *)
Theorem try_repair_up_assertion (e : expr) (st : sls) :
  is_assertion e = true →
  let st' := try_repair_up e st in
  m_eval st' = m_eval st ∧
  m_repair_up st' = m_repair_up st ∖ {[get_id e]} ∧
  m_repair_down st' = {[get_id e]} ∪ m_repair_down st ∧
  (get_id e ∉ m_repair_up st') ∧ get_id e ∈ m_repair_down st'.
Proof.
  intros Ha. cbv zeta. unfold try_repair_up. rewrite Ha. simpl.
  unfold uint_set.remove, uint_set.insert.
  split_and!; try done; set_solver.
Qed.

(** X2: a pass of the search loop that picks a node which is correct
    removes it from the set it was picked from and changes neither the
    evaluator nor the other set. *)
Theorem correct_pick_is_dropped (e : expr) (down : bool) (st : sls) :
  let polled :=
    with_stats (with_limit st (inc (m_limit st)).2)
               (mk_stats (incr32 (m_moves (m_stats st)))
                         (m_restarts (m_stats st))) in
  (inc (m_limit st)).1 = true →
  (next_to_repair polled).1 = (down, Some e) →
  eval_is_correct (m_eval st) e = true →
  ∃ st', search_iteration st = continues st' ∧
         m_eval st' = m_eval st ∧
         m_repair_down st' =
           (if down then m_repair_down st ∖ {[get_id e]}
            else m_repair_down st) ∧
         m_repair_up st' =
           (if down then m_repair_up st
            else m_repair_up st ∖ {[get_id e]}).
Proof.
  cbv zeta. intros Hinc Hpick Hcorrect. unfold search_iteration.
  destruct (inc (m_limit st)) as [ok lim]. simpl in Hinc, Hpick. subst ok.
  set (polled := with_stats _ _) in *.
  pose proof (next_to_repair_state polled) as Hst.
  destruct (next_to_repair polled) as [[down' e'] st2].
  simpl in Hpick, Hst. injection Hpick as -> ->.
  rewrite Hst. simpl. rewrite Hcorrect.
  destruct down; eexists; (split; [reflexivity|]); done.
Qed.

(** ** Initialisation of the repair sets *)

Lemma init_repair_terms_spec (ts : list (option expr)) (ev : sls_eval)
      (down : gset nat) (id : nat) :
  id ∈ init_repair_terms ts ev down ↔
  id ∈ down
  ∨ ∃ t, Some t ∈ ts ∧ get_id t = id ∧ eval_is_correct ev t = false.
Proof.
  revert down. induction ts as [|[t|] ts IH]; intros down; simpl.
  - split; [by left|]. intros [?|(t & Ht & _)]; [done|]. by inversion Ht.
  - destruct (eval_is_correct ev t) eqn:Hc; simpl; rewrite IH.
    + split.
      * intros [?|(t' & ? & ? & ?)]; [by left|].
        right. exists t'. split_and!; try done. by constructor.
      * intros [?|(t' & Hin & ? & ?)]; [by left|].
        apply elem_of_cons in Hin as [[= ->]|?]; [congruence|].
        right. by exists t'.
    + rewrite uint_set_elem_of_insert. split.
      * intros [[->|?]|(t' & ? & ? & ?)]; [|by left|].
        -- right. exists t. split_and!; try done. by constructor.
        -- right. exists t'. split_and!; try done. by constructor.
      * intros [?|(t' & Hin & ? & ?)]; [by left; right|].
        apply elem_of_cons in Hin as [[= ->]|?]; [by left; left|].
        right. by exists t'.
  - rewrite IH. split.
    + intros [?|(t' & ? & ? & ?)]; [by left|].
      right. exists t'. split_and!; try done. by constructor.
    + intros [?|(t' & Hin & ? & ?)]; [by left|].
      apply elem_of_cons in Hin as [?|?]; [done|].
      right. by exists t'.
Qed.

Lemma init_repair_assertions_spec (es : list expr) (ev : sls_eval)
      (down : gset nat) :
  set_overwrites →
  let ev' := (init_repair_assertions es ev down).1 in
  let down' := (init_repair_assertions es ev down).2 in
  (∀ b, bval0 ev' b = true ↔
        bval0 ev b = true
        ∨ ∃ a, a ∈ es ∧ get_id a = get_id b ∧ bval0 ev a = false)
  ∧ (∀ id, id ∈ down' ↔
           id ∈ down ∨ ∃ a, a ∈ es ∧ get_id a = id ∧ bval0 ev a = false).
Proof.
  intros Hset. cbv zeta. revert ev down.
  induction es as [|e es IH]; intros ev down; simpl.
  - split; intros x; (split; [by left|]);
      (intros [?|(a & Ha & _)]; [done | by inversion Ha]).
  - destruct (bval0 ev e) eqn:He; simpl.
    + destruct (IH ev down) as [IHv IHd]. split; intros x.
      * rewrite IHv. split.
        -- intros [?|(a & ? & ? & ?)]; [by left|].
           right. exists a. split_and!; try done. by constructor.
        -- intros [?|(a & Hin & ? & ?)]; [by left|].
           apply elem_of_cons in Hin as [->|?]; [congruence|].
           right. by exists a.
      * rewrite IHd. split.
        -- intros [?|(a & ? & ? & ?)]; [by left|].
           right. exists a. split_and!; try done. by constructor.
        -- intros [?|(a & Hin & ? & ?)]; [by left|].
           apply elem_of_cons in Hin as [->|?]; [congruence|].
           right. by exists a.
    + destruct (IH (eval_set ev e true) (uint_set.insert (get_id e) down))
        as [IHv IHd].
      assert (∀ b, bval0 (eval_set ev e true) b =
                   if bool_decide (get_id e = get_id b) then true
                   else bval0 ev b) as Hb by (intros; apply Hset).
      split; intros x.
      * rewrite IHv, Hb. split.
        -- intros [Hx|(a & Hin & Hid & Ha)].
           ++ case_bool_decide as Hex; [|by left].
              right. exists e. split_and!; try done. by constructor.
           ++ rewrite Hb in Ha. case_bool_decide; [done|].
              right. exists a. split_and!; try done. by constructor.
        -- intros [Hx|(a & Hin & Hid & Ha)].
           ++ left. by case_bool_decide.
           ++ apply elem_of_cons in Hin as [->|Hin].
              ** left. by rewrite bool_decide_eq_true_2.
              ** destruct (decide (get_id e = get_id a)) as [Heq|Hne].
                 --- left. rewrite bool_decide_eq_true_2; [done|congruence].
                 --- right. exists a. split_and!; try done.
                     rewrite Hb. by rewrite bool_decide_eq_false_2.
      * rewrite IHd, uint_set_elem_of_insert. split.
        -- intros [[->|?]|(a & Hin & Hid & Ha)]; [|by left|].
           ++ right. exists e. split_and!; try done. by constructor.
           ++ rewrite Hb in Ha. case_bool_decide; [done|].
              right. exists a. split_and!; try done. by constructor.
        -- intros [?|(a & Hin & Hid & Ha)]; [by left; right|].
           apply elem_of_cons in Hin as [->|Hin]; [by left; left|].
           destruct (decide (get_id e = get_id a)) as [Heq|Hne].
           ++ left; left. congruence.
           ++ right. exists a. split_and!; try done.
              rewrite Hb. by rewrite bool_decide_eq_false_2.
Qed.

(** C2 (amended): after init_repair the up set is empty and down holds
    exactly the ids of the assertions whose current value was false,
    each of which now has the value true, and of the non-null terms for
    which eval_is_correct is false, whether because can_eval1 is false or
    because the current and the recomputed value differ. *)
Theorem init_repair_sets (st : sls) :
  set_overwrites →
  let st' := init_repair st in
  m_repair_up st' = ∅
  ∧ (∀ id : nat,
        id ∈ m_repair_down st' ↔
        (∃ a, a ∈ assertions ∧ get_id a = id ∧ bval0 (m_eval st) a = false)
        ∨ (∃ t, Some t ∈ terms ∧ get_id t = id ∧
                eval_is_correct (m_eval st') t = false))
  ∧ (∀ a, a ∈ assertions → bval0 (m_eval st') a = true)
  ∧ (∀ t, eval_is_correct (m_eval st') t = false ↔
          can_eval1 (m_eval st') t = false
          ∨ is_bool t = true ∧ bval0 (m_eval st') t ≠ bval1 (m_eval st') t
          ∨ is_bool t = false ∧ is_bv t = true ∧
            bits (wval0 (m_eval st') t) ≠ bits (wval1 (m_eval st') t)
          ∨ is_bool t = false ∧ is_bv t = false).
Proof.
  intros Hset. cbv zeta. unfold init_repair.
  pose proof (init_repair_assertions_spec assertions (m_eval st)
                uint_set.reset Hset) as [Hv Hd].
  destruct (init_repair_assertions assertions (m_eval st) uint_set.reset)
    as [ev down] eqn:Hinit. simpl in *.
  split_and!; [done | | |].
  - intros id. rewrite init_repair_terms_spec, Hd.
    unfold uint_set.reset. set_solver.
  - intros a Ha. apply Hv.
    destruct (bval0 (m_eval st) a) eqn:Hb; [by left|].
    right. by exists a.
  - intros t. unfold eval_is_correct, valuation_eq.
    destruct (can_eval1 ev t), (is_bool t), (is_bv t); simpl;
      try case_bool_decide; intuition congruence.
Qed.

(** ** Restart *)



(** ** Configuration *)

(** C9 (amended): updt_params validates nothing.  Whatever the
    parameters, it installs max_restarts in the configuration and seeds
    the generator with random_seed; it leaves max_repairs and the rest of
    the engine as they were. *)
Theorem updt_params_installs (p : sls_params) (st : sls) :
  m_max_restarts (m_config (updt_params p st)) = max_restarts p
  ∧ m_rand (updt_params p st) = set_seed (random_seed p)
  ∧ m_max_repairs (m_config (updt_params p st)) = m_max_repairs (m_config st)
  ∧ updt_params p st =
    with_rand
      (with_config st (mk_config (m_max_repairs (m_config st))
                                 (max_restarts p)))
      (set_seed (random_seed p))
  ∧ m_eval (updt_params p st) = m_eval st
  ∧ m_repair_down (updt_params p st) = m_repair_down st
  ∧ m_repair_up (updt_params p st) = m_repair_up st
  ∧ m_stats (updt_params p st) = m_stats st
  ∧ (rejects p st ↔
     max_restarts p = m_max_restarts (m_config st)
     ∧ set_seed (random_seed p) = m_rand st).
Proof.
  unfold rejects, updt_params. split_and!; try done.
  destruct st as [ev d u r [mr mx] sts lim out]. simpl. split.
  - intros [= -> ->]. done.
  - intros [-> ->]. done.
Qed.

(** ** The driver *)

Lemma driver_fields_down_loop (e : expr) (n s : nat) (idx : list nat)
      (st : sls) :
  driver_fields (try_repair_down_loop e n s idx st).2 = driver_fields st.
Proof.
  revert st. induction idx as [|i idx IH]; intros st; simpl; [done|].
  unfold try_repair_down_arg.
  destruct (try_repair (m_eval st) e ((i + s) mod n)) as [[] ev]; simpl;
    [done|]. by rewrite IH.
Qed.

Lemma driver_fields_try_repair_down (e : expr) (st : sls) :
  driver_fields (try_repair_down e st) = driver_fields st.
Proof.
  unfold try_repair_down. case_bool_decide.
  - destruct (rand_below _ _) as [s r].
    pose proof (driver_fields_down_loop e (get_num_args e) s
                  (seq 0 (get_num_args e)) (with_rand st r)) as Hl.
    destruct (try_repair_down_loop _ _ _ _ _) as [[] st1]; exact Hl.
  - done.
Qed.

Lemma driver_fields_try_repair_up (e : expr) (st : sls) :
  driver_fields (try_repair_up e st) = driver_fields st.
Proof. unfold try_repair_up. by destruct (is_assertion e). Qed.

Lemma driver_fields_init_repair (st : sls) :
  driver_fields (init_repair st) = driver_fields st.
Proof.
  unfold init_repair. by destruct (init_repair_assertions _ _ _).
Qed.

Lemma driver_fields_reinit_eval (st : sls) :
  driver_fields (reinit_eval st) = driver_fields st.
Proof.
  unfold reinit_eval. destruct (eval_init_eval _ _ _ _) as [ev r].
  by rewrite driver_fields_init_repair.
Qed.

Lemma reinit_eval_up (st : sls) : m_repair_up (reinit_eval st) = ∅.
Proof.
  unfold reinit_eval. destruct (eval_init_eval _ _ _ _) as [ev r].
  unfold init_repair. by destruct (init_repair_assertions _ _ _).
Qed.

Lemma restart_numbers_app (out out' : list verbose_line) :
  restart_numbers (out ++ out') = restart_numbers out ++ restart_numbers out'.
Proof.
  induction out as [|[] out IH]; simpl; [done|done|by rewrite IH].
Qed.

(** A pass of the search loop keeps the configuration and the restart
    counter, and writes no restart line. *)
Lemma search_iteration_keeps (st : sls) :
  let st' := match search_iteration st with
             | returns _ st' | continues st' => st'
             end in
  m_config st' = m_config st
  ∧ m_restarts (m_stats st') = m_restarts (m_stats st)
  ∧ restart_numbers (m_out st') = restart_numbers (m_out st).
Proof.
  cbv zeta. unfold search_iteration.
  destruct (inc (m_limit st)) as [[] lim]; simpl; [|done].
  set (st1 := with_stats _ _).
  pose proof (next_to_repair_state st1) as Hst.
  destruct (next_to_repair st1) as [[down [e|]] st2]; simpl in *;
    [|by rewrite Hst].
  set (st3 := verbose st2 _).
  assert (m_config st3 = m_config st
          ∧ m_restarts (m_stats st3) = m_restarts (m_stats st)
          ∧ restart_numbers (m_out st3) = restart_numbers (m_out st)) as H3.
  { subst st3. rewrite Hst. simpl. rewrite restart_numbers_app. simpl.
    by rewrite app_nil_r. }
  destruct (eval_is_correct (m_eval st2) e), down; simpl; try done.
  - pose proof (driver_fields_try_repair_down e st3) as [= -> -> _ ->].
    done.
  - pose proof (driver_fields_try_repair_up e st3) as [= -> -> _ ->].
    done.
Qed.

Lemma search_loop_keeps (n : nat) (st : sls) :
  m_config (search_loop n st).2 = m_config st
  ∧ m_restarts (m_stats (search_loop n st).2) = m_restarts (m_stats st)
  ∧ restart_numbers (m_out (search_loop n st).2) = restart_numbers (m_out st).
Proof.
  revert st. induction n as [|n IH]; intros st; simpl; [done|].
  pose proof (search_iteration_keeps st) as Hk. cbv zeta in Hk.
  destruct (search_iteration st) as [res st'|st']; simpl; [done|].
  destruct (IH st') as (-> & -> & ->). done.
Qed.

Lemma search_keeps (st : sls) :
  (search st).1 ≠ l_false
  ∧ m_config (search st).2 = m_config st
  ∧ m_restarts (m_stats (search st).2) = m_restarts (m_stats st)
  ∧ restart_numbers (m_out (search st).2) = restart_numbers (m_out st).
Proof.
  unfold search. split; [apply search_loop_not_false | apply search_loop_keeps].
Qed.

Lemma numbers_from_cons (c : N) (k : nat) :
  (λ i, (c + N.of_nat i)%N) <$> seq 0 (S k) =
  c :: ((λ i, (c + 1 + N.of_nat i)%N) <$> seq 0 k).
Proof.
  simpl. f_equal; [lia|]. rewrite <- fmap_S_seq, <- list_fmap_compose.
  apply list_fmap_ext. intros _ i _. simpl. lia.
Qed.

(** The do-while loop of [operator()], started with the restart counter
    at [c]: it ends, and writes restart lines numbered [c, c+1, ...]. *)
Lemma restart_loop_spec (fuel : nat) (st : sls) :
  let c := m_restarts (m_stats st) in
  let M := m_max_restarts (m_config st) in
  (M ≤ UINT_MAX)%N → (c ≤ M)%N → N.to_nat (M - c) < fuel →
  ∃ res st' k,
    restart_loop fuel st = Some (res, st') ∧ res ≠ l_false ∧
    restart_numbers (m_out st') =
      restart_numbers (m_out st) ++ ((λ i, (c + N.of_nat i)%N) <$> seq 0 k) ∧
    m_config st' = m_config st ∧
    (res = l_true →
       (N.of_nat k ≤ M - c)%N ∧
       m_restarts (m_stats st') = (c + N.of_nat k)%N) ∧
    (res = l_undef →
       1 ≤ k ∧ (N.of_nat k ≤ M - c + 1)%N ∧ m_repair_up st' = ∅ ∧
       (m_restarts (m_stats st') = (c + N.of_nat k - 1)%N
        ∨ (N.of_nat k = M - c + 1)%N ∧
          m_restarts (m_stats st') = wrap32 (M + 1))).
Proof.
  cbv zeta. revert st.
  induction fuel as [|fuel IH]; intros st HM Hc Hfuel; [lia|]. simpl.
  destruct (search_keeps st) as (Hnf & Hcfg & Hrs & Hout).
  destruct (search st) as [res st1]. simpl in *.
  case_bool_decide as Hres.
  - exists res, st1, 0. simpl. rewrite app_nil_r.
    split_and!; try done.
    + intros _. split; [lia|]. rewrite Hrs. lia.
  - assert (res = l_undef) as -> by (destruct res; naive_solver).
    clear Hres Hnf.
    pose proof (driver_fields_reinit_eval (trace st1)) as Hdf.
    pose proof (reinit_eval_up (trace st1)) as Hup.
    set (st3 := reinit_eval (trace st1)) in *.
    injection Hdf as Hcfg3 Hst3 _ Hout3. simpl in Hcfg3, Hst3, Hout3.
    assert (restart_numbers (m_out st3) =
            restart_numbers (m_out st) ++ [m_restarts (m_stats st)]) as Hnum.
    { rewrite Hout3, restart_numbers_app, Hout, Hrs. done. }
    destruct (inc (m_limit st3)) as [[] lim]; simpl.
    + rewrite Hst3, Hcfg3, Hrs, Hcfg.
      case_bool_decide as Hlt.
      * set (st4 := with_stats _ _).
        assert (incr32 (m_restarts (m_stats st)) =
                (m_restarts (m_stats st) + 1)%N) as Hinc.
        { unfold incr32, wrap32, UINT_MAX in *. apply N.mod_small. lia. }
        destruct (IH st4) as (res' & st' & k & Hloop & ? & Hn & Hc' & Ht & Hu).
        { subst st4. simpl. by rewrite Hcfg3, Hcfg. }
        { subst st4. simpl. rewrite Hcfg3, Hcfg, Hinc. lia. }
        { subst st4. simpl. rewrite Hcfg3, Hcfg, Hinc. lia. }
        subst st4. simpl in *. rewrite Hcfg3, Hcfg, Hinc in *.
        exists res', st', (S k). rewrite numbers_from_cons.
        split_and!; try done.
        -- rewrite Hn, Hnum, <- app_assoc. done.
        -- intros Hr. destruct (Ht Hr) as [? ->]. lia.
        -- intros Hr. destruct (Hu Hr) as (? & ? & ? & Hcase).
           split_and!; try done; [lia | lia |].
           destruct Hcase as [->|[? ->]]; [left; lia | right; split; [lia|done]].
      * eexists l_undef, _, 1.
        split_and!; [reflexivity | done | | | done |].
        -- simpl. rewrite Hnum. simpl. do 2 f_equal. lia.
        -- simpl. by rewrite Hcfg3.
        -- intros _. simpl. split_and!; try done; [lia|].
           right. assert (m_restarts (m_stats st) =
                          m_max_restarts (m_config st)) as -> by lia.
           split; [lia | done].
    + eexists l_undef, _, 1.
      split_and!; [reflexivity | done | | | done |].
      * simpl. rewrite Hnum. simpl. do 2 f_equal. lia.
      * simpl. by rewrite Hcfg3.
      * intros _. simpl. split_and!; try done; [lia|].
        left. rewrite Hst3, Hrs. lia.
Qed.

(** C7 (amended): in operator(), each search that returns l_undef is
    followed by a trace line that reports the restart counter as it
    stands, before any increment, with the sizes of down and up, and by a
    reseeding through reinit_eval, whether or not restarts remain.  Then
    the limit is polled: on refusal the driver stops with the counter
    unchanged; otherwise the counter is incremented, and search resumes on
    the reseeded state exactly when the counter before the increment was
    below max_restarts.  The driver ends, never with l_false; its restart
    lines are numbered 0, 1, ..., and there are at most max_restarts + 1 of
    them. *)
Theorem operator_call_restarts (st : sls) :
  (m_max_restarts (m_config st) ≤ UINT_MAX)%N →
  let M := m_max_restarts (m_config st) in
  (∃ res st' k,
      operator_call st = Some (res, st') ∧ res ≠ l_false ∧
      restart_numbers (m_out st') =
        restart_numbers (m_out st) ++ (N.of_nat <$> seq 0 k) ∧
      (res = l_true →
         (N.of_nat k ≤ M)%N ∧ m_restarts (m_stats st') = N.of_nat k) ∧
      (res = l_undef →
         1 ≤ k ∧ (N.of_nat k ≤ M + 1)%N ∧ m_repair_up st' = ∅ ∧
         (m_restarts (m_stats st') = N.of_nat (k - 1)
          ∨ (N.of_nat k = M + 1)%N ∧
            m_restarts (m_stats st') = wrap32 (M + 1))))
  ∧ (∀ (fuel : nat) (s : sls),
        (search s).1 = l_undef →
        let s1 := (search s).2 in
        let s2 := reinit_eval (trace s1) in
        let s3 := with_limit s2 (inc (m_limit s2)).2 in
        let s4 := with_stats s3 (mk_stats (m_moves (m_stats s3))
                                   (incr32 (m_restarts (m_stats s3)))) in
        m_out (trace s1) =
          m_out s1 ++ [restart_line (m_restarts (m_stats s))
                         (size (m_repair_down s1)) (size (m_repair_up s1))]
        ∧ restart_loop (S fuel) s =
          if (inc (m_limit s2)).1 then
            if bool_decide (m_restarts (m_stats s) < m_max_restarts (m_config s))%N
            then restart_loop fuel s4
            else Some (l_undef, s4)
          else Some (l_undef, s3)).
Proof.
  intros HM. cbv zeta. split.
  - unfold operator_call. set (st0 := with_stats st (mk_stats 0 0)).
    destruct (restart_loop_spec (S (N.to_nat (m_max_restarts (m_config st0))))
                st0) as (res & st' & k & Hloop & Hnf & Hn & _ & Ht & Hu).
    { done. } { simpl. lia. } { simpl. lia. }
    exists res, st', k. simpl in *.
    split_and!; [done | done | | |].
    + by rewrite Hn.
    + intros Hr. destruct (Ht Hr). split; lia.
    + intros Hr. destruct (Hu Hr) as (? & ? & ? & Hcase).
      split_and!; try done; [lia|].
      destruct Hcase as [->|[? ->]]; [left; lia | right; split; [lia|done]].
  - intros fuel s Hs.
    destruct (search_keeps s) as (_ & Hcfg & Hrs & _).
    pose proof (driver_fields_reinit_eval (trace (search s).2)) as Hdf.
    injection Hdf as Hcfg3 Hst3 _ _. simpl in Hcfg3, Hst3.
    split.
    + unfold trace, verbose. simpl. by rewrite Hrs.
    + simpl. destruct (search s) as [res s1]. simpl in *. subst res.
      rewrite bool_decide_eq_false_2 by (intros H; by apply H).
      destruct (inc (m_limit (reinit_eval (trace s1)))) as [[] lim];
        simpl; [|done].
      by rewrite Hst3, Hcfg3, Hrs, Hcfg.
Qed.


End Properties.

(** * Further properties of the scheduler *)

Section MoreProperties.
Context {T : Terms} {E : Evaluator} {G : RandomGen} {L : Host}.

(** ** What a move can take out of the repair sets *)

Lemma try_repair_down_sets (e : expr) (st : sls) :
  m_repair_up st ⊆ m_repair_up (try_repair_down e st)
  ∧ (∀ x, x ≠ get_id e → x ∈ m_repair_down st →
          x ∈ m_repair_down (try_repair_down e st))
  ∧ (get_id e ∈ m_repair_down (try_repair_down e st)
     ∨ get_id e ∈ m_repair_up (try_repair_down e st)
     ∨ get_id e ∉ m_repair_down st).
Proof.
  destruct (decide (get_num_args e = 0)) as [Hz|Hnz].
  - rewrite try_repair_down_no_args by done. simpl.
    unfold uint_set.remove, uint_set.insert. split_and!; set_solver.
  - assert (0 < get_num_args e) as Hn by lia.
    destruct (try_repair_down_spec e st Hn) as [_ Hcases].
    destruct Hcases as [(k & c & ev1 & _ & _ & _ & Hd & Hu)|(_ & Hd & Hu)];
      rewrite Hd, Hu.
    + split_and!; [set_solver | set_solver |].
      destruct (decide (get_id e ∈ m_repair_down st)); [left|by right; right].
      set_solver.
    + split_and!; set_solver.
Qed.

Lemma try_repair_up_sets (e : expr) (st : sls) :
  m_repair_down st ⊆ m_repair_down (try_repair_up e st)
  ∧ (∀ x, x ≠ get_id e → x ∈ m_repair_up st →
          x ∈ m_repair_up (try_repair_up e st)).
Proof.
  unfold try_repair_up. destruct (is_assertion e); simpl.
  - unfold uint_set.remove, uint_set.insert. split; set_solver.
  - rewrite insert_parents_spec. unfold uint_set.remove. split; set_solver.
Qed.

(** X3: try_repair_down never shrinks the set of queued nodes.  Nothing
    leaves up, nothing but the node itself leaves down, and the node, if
    it was in down, is still in down or in up afterwards. *)
Theorem try_repair_down_keeps_queue (e : expr) (st : sls) :
  get_id e ∈ m_repair_down st →
  let st' := try_repair_down e st in
  m_repair_up st ⊆ m_repair_up st'
  ∧ m_repair_down st ∖ {[get_id e]} ⊆ m_repair_down st'
  ∧ m_repair_down st ∪ m_repair_up st ⊆ m_repair_down st' ∪ m_repair_up st'.
Proof.
  intros He. cbv zeta.
  destruct (try_repair_down_sets e st) as (Hu & Hd & Hself).
  split_and!; [done | |].
  - intros x Hx. apply elem_of_difference in Hx as [Hx Hne].
    apply Hd; [set_solver | done].
  - intros x Hx. apply elem_of_union in Hx as [Hx|Hx].
    + destruct (decide (x = get_id e)) as [->|Hne].
      * destruct Hself as [?|[?|?]]; set_solver.
      * apply elem_of_union_l. by apply Hd.
    + apply elem_of_union_r. by apply Hu.
Qed.

(** X4: a pass of the search loop takes no node but the picked one out of
    a repair set: every other id that was in down is still in down, and
    every other id that was in up is still in up. *)
Theorem pass_drops_only_pick (st st' : sls) :
  search_iteration st = continues st' →
  ∃ (down : bool) (e : expr),
    (next_to_repair
       (with_stats (with_limit st (inc (m_limit st)).2)
                   (mk_stats (incr32 (m_moves (m_stats st)))
                             (m_restarts (m_stats st))))).1 = (down, Some e)
    ∧ ∀ x, x ≠ get_id e →
           (x ∈ m_repair_down st → x ∈ m_repair_down st')
           ∧ (x ∈ m_repair_up st → x ∈ m_repair_up st').
Proof.
  unfold search_iteration.
  destruct (inc (m_limit st)) as [[] lim]; simpl; [|done].
  set (polled := with_stats _ _).
  pose proof (next_to_repair_state polled) as Hst.
  destruct (next_to_repair polled) as [[down [e|]] st2]; simpl in *; [|done].
  remember (verbose st2 _) as st3 eqn:Hst3.
  assert (m_repair_down st3 = m_repair_down st
          ∧ m_repair_up st3 = m_repair_up st) as [Hd3 Hu3].
  { rewrite Hst3, Hst. done. }
  assert (m_repair_down st2 = m_repair_down st
          ∧ m_repair_up st2 = m_repair_up st) as [Hd2 Hu2].
  { rewrite Hst. done. }
  clear Hst3.
  intros Hit. exists down, e. split; [done|]. intros x Hne.
  destruct (eval_is_correct (m_eval st2) e), down;
    injection Hit as <-; simpl.
  - rewrite ?Hd3, ?Hu3, ?Hd2, ?Hu2. unfold uint_set.remove. set_solver.
  - rewrite ?Hd3, ?Hu3, ?Hd2, ?Hu2. unfold uint_set.remove. set_solver.
  - destruct (try_repair_down_sets e st3) as (Hu & Hd & _).
    rewrite <- Hd3, <- Hu3. split; [by apply Hd | apply Hu].
  - destruct (try_repair_up_sets e st3) as (Hd & Hu).
    rewrite <- Hd3, <- Hu3. split; [apply Hd | by apply Hu].
Qed.

(** ** Accounting of a search *)

Lemma iter_incr32 (k : nat) (m : N) :
  Nat.iter (S k) incr32 m = wrap32 (m + N.of_nat (S k)).
Proof.
  induction k as [|k IH].
  - simpl. unfold incr32. f_equal.
  - rewrite Nat.iter_succ, IH. unfold incr32, wrap32.
    rewrite N.Div0.add_mod_idemp_l. f_equal. lia.
Qed.

(** One pass: what it writes, counts and polls. *)
Lemma search_iteration_accounting (st : sls) :
  match search_iteration st with
  | returns res st' =>
      res = l_true ∧ (inc (m_limit st)).1 = true ∧
      m_out st' = m_out st ∧
      m_moves (m_stats st') = incr32 (m_moves (m_stats st)) ∧
      m_limit st' = poll (m_limit st)
      ∨ res = l_undef ∧ (inc (m_limit st)).1 = false ∧
        st' = with_limit st (poll (m_limit st))
  | continues st' =>
      (inc (m_limit st)).1 = true ∧
      (∃ ln, is_move_line ln ∧ m_out st' = m_out st ++ [ln]) ∧
      m_moves (m_stats st') = incr32 (m_moves (m_stats st)) ∧
      m_limit st' = poll (m_limit st)
  end.
Proof.
  unfold search_iteration, poll.
  destruct (inc (m_limit st)) as [[] lim]; simpl; [|by right].
  set (polled := with_stats _ _).
  pose proof (next_to_repair_state polled) as Hst.
  destruct (next_to_repair polled) as [[down [e|]] st2]; simpl in *.
  - remember (verbose st2 _) as st3 eqn:Hst3.
    assert (driver_fields st3 =
            (m_config st, mk_stats (incr32 (m_moves (m_stats st)))
                                   (m_restarts (m_stats st)), lim,
             m_out st ++ [move_line down (get_id e)
                (if is_bv e then Some (wval0 (m_eval st2) e) else None)
                (if is_bool e then Some (bval0 (m_eval st2) e) else None)
                (eval_is_correct (m_eval st2) e)])) as Hdf.
    { rewrite Hst3, Hst. done. }
    clear Hst3.
    assert (∀ st4, driver_fields st4 = driver_fields st3 →
              true = true ∧
              (∃ ln, is_move_line ln ∧ m_out st4 = m_out st ++ [ln]) ∧
              m_moves (m_stats st4) = incr32 (m_moves (m_stats st)) ∧
              m_limit st4 = lim) as Hall.
    { intros st4 H4. rewrite Hdf in H4. injection H4 as _ -> -> ->.
      split_and!; try done. eexists. split; [|reflexivity]. done. }
    destruct (eval_is_correct (m_eval st2) e), down; apply Hall; try done.
    + apply driver_fields_try_repair_down.
    + apply driver_fields_try_repair_up.
  - left. rewrite Hst. done.
Qed.

Lemma search_loop_accounting (n : nat) (st : sls) :
  ∃ (k : nat) (lines : list verbose_line),
    k ≤ n ∧
    m_out (search_loop n st).2 = m_out st ++ lines ∧
    Forall is_move_line lines ∧
    m_moves (m_stats (search_loop n st).2) =
      Nat.iter k incr32 (m_moves (m_stats st)) ∧
    ((search_loop n st).1 = l_true →
       1 ≤ k ∧ length lines = k - 1 ∧
       m_limit (search_loop n st).2 = Nat.iter k poll (m_limit st)) ∧
    ((search_loop n st).1 = l_undef →
       length lines = k ∧
       (k = n ∧ m_limit (search_loop n st).2 = Nat.iter k poll (m_limit st)
        ∨ k < n ∧
          m_limit (search_loop n st).2 = Nat.iter (S k) poll (m_limit st) ∧
          (inc (Nat.iter k poll (m_limit st))).1 = false)).
Proof.
  revert st. induction n as [|n IH]; intros st; simpl.
  - exists 0, []. rewrite app_nil_r. split_and!; try done.
    intros _. split; [done|]. by left.
  - pose proof (search_iteration_accounting st) as Hacc.
    destruct (search_iteration st) as [res st'|st']; simpl.
    + destruct Hacc as [(-> & Hinc & Ho & Hm & Hl)|(-> & Hinc & ->)].
      * exists 1, []. rewrite app_nil_r. simpl.
        split_and!; try done; try lia.
      * exists 0, []. rewrite app_nil_r. simpl.
        split_and!; try done; try lia.
        intros _. split; [done|]. right. split_and!; [lia|done|done].
    + destruct Hacc as (Hinc & (ln & Hln & Ho) & Hm & Hl).
      destruct (IH st') as (k & lines & Hk & Hout & Hall & Hmv & Ht & Hu).
      exists (S k), (ln :: lines). split_and!.
      * lia.
      * by rewrite Hout, Ho, <- app_assoc.
      * by constructor.
      * by rewrite Hmv, Hm, <- Nat.iter_succ_r.
      * intros Hr. destruct (Ht Hr) as (? & Hlen & Hlim).
        split_and!; [lia | simpl; lia |].
        by rewrite (Nat.iter_succ_r k), <- Hl.
      * intros Hr. destruct (Hu Hr) as (Hlen & Hcase).
        split; [simpl; lia|].
        destruct Hcase as [[Hkn Hlim]|(Hkn & Hlim & Hf)].
        -- left. split; [lia|]. by rewrite (Nat.iter_succ_r k), <- Hl.
        -- right. split_and!; [lia | |].
           ++ by rewrite Hlim, Hl, <- (Nat.iter_succ_r (S k)).
           ++ by rewrite (Nat.iter_succ_r k), <- Hl.
Qed.

(** X5: what a call of search costs.  It makes some number [k] of moves,
    at most m_max_repairs; m_moves grows by [k], wrapping at 32 bits;
    the output grows by move lines only, one for each move that picked a
    node (all [k] of them, or [k - 1] when the last move found both sets
    empty); and the limit is polled once per move, and once more when a
    refusal ends the search. *)
Theorem search_accounting (st : sls) :
  ∃ (k : nat) (lines : list verbose_line),
    k ≤ N.to_nat (m_max_repairs (m_config st)) ∧
    m_out (search st).2 = m_out st ++ lines ∧
    Forall is_move_line lines ∧
    m_moves (m_stats (search st).2) =
      match k with
      | 0 => m_moves (m_stats st)
      | S _ => wrap32 (m_moves (m_stats st) + N.of_nat k)
      end ∧
    ((search st).1 = l_true →
       1 ≤ k ∧ length lines = k - 1 ∧
       m_limit (search st).2 = Nat.iter k poll (m_limit st)) ∧
    ((search st).1 = l_undef →
       length lines = k ∧
       (k = N.to_nat (m_max_repairs (m_config st)) ∧
        m_limit (search st).2 = Nat.iter k poll (m_limit st)
        ∨ k < N.to_nat (m_max_repairs (m_config st)) ∧
          m_limit (search st).2 = Nat.iter (S k) poll (m_limit st) ∧
          (inc (Nat.iter k poll (m_limit st))).1 = false)).
Proof.
  unfold search.
  destruct (search_loop_accounting
              (N.to_nat (m_max_repairs (m_config st))) st)
    as (k & lines & Hk & Hout & Hall & Hmv & Ht & Hu).
  exists k, lines. split_and!; try done.
  rewrite Hmv. destruct k as [|k]; [done|]. apply iter_incr32.
Qed.

(** X6: search on an engine with nothing to repair.  With both sets empty
    it returns l_true exactly when the move budget is not zero and the
    limit permits the first poll, and l_undef otherwise; either way the
    evaluator, the generator, the sets and the output are left alone. *)
Theorem search_nothing_to_repair (st : sls) :
  m_repair_down st = ∅ → m_repair_up st = ∅ →
  ((search st).1 = l_true ↔
     (0 < m_max_repairs (m_config st))%N ∧ (inc (m_limit st)).1 = true)
  ∧ ((search st).1 = l_undef ↔
       m_max_repairs (m_config st) = 0%N ∨ (inc (m_limit st)).1 = false)
  ∧ m_eval (search st).2 = m_eval st
  ∧ m_rand (search st).2 = m_rand st
  ∧ m_repair_down (search st).2 = ∅
  ∧ m_repair_up (search st).2 = ∅
  ∧ m_out (search st).2 = m_out st.
Proof.
  intros Hd Hu. unfold search.
  destruct (N.to_nat (m_max_repairs (m_config st))) as [|n] eqn:Hn; simpl.
  - split_and!; try done.
    + split; [done|]. intros [? _]. lia.
    + split; [|done]. intros _. left. lia.
  - unfold search_iteration.
    destruct (inc (m_limit st)) as [[] lim]; simpl.
    + unfold next_to_repair. simpl. rewrite Hd, Hu.
      unfold uint_set.empty. rewrite !bool_decide_eq_true_2 by done. simpl.
      split_and!; try done.
      * split; [|done]. intros _. split; [lia|done].
      * split; [done|]. intros [?|?]; [lia|done].
    + split_and!; try done.
      * split; [done|]. by intros [_ ?].
      * split; [|done]. intros _. by right.
Qed.

(** ** The driver's result *)

Lemma search_loop_true_empty (n : nat) (st : sls) :
  (search_loop n st).1 = l_true →
  m_repair_down (search_loop n st).2 = ∅ ∧ m_repair_up (search_loop n st).2 = ∅.
Proof.
  revert st. induction n as [|n IH]; intros st; simpl; [done|].
  pose proof (search_iteration_cases st) as Hc.
  destruct (search_iteration st) as [res st'|st']; simpl; [|apply IH].
  intros ->. destruct Hc as [(_ & _ & _ & _ & ? & ?)|[? _]]; done.
Qed.

Lemma restart_loop_sat (fuel : nat) (st st' : sls) :
  restart_loop fuel st = Some (l_true, st') →
  m_repair_down st' = ∅ ∧ m_repair_up st' = ∅ ∧ m_config st' = m_config st
  ∧ ∃ s, search s = (l_true, st').
Proof.
  revert st. induction fuel as [|fuel IH]; intros st; simpl; [done|].
  destruct (search_keeps st) as (_ & Hcfg & _ & _).
  pose proof (search_loop_true_empty
                (N.to_nat (m_max_repairs (m_config st))) st) as Hempty.
  fold (search st) in Hempty.
  destruct (search st) as [res st1] eqn:Hs. simpl in *.
  case_bool_decide as Hres.
  - intros [= -> ->]. destruct (Hempty eq_refl).
    split_and!; try done. by exists st.
  - pose proof (driver_fields_reinit_eval (trace st1)) as Hdf.
    injection Hdf as Hcfg3 _ _ _. simpl in Hcfg3.
    destruct (inc (m_limit (reinit_eval (trace st1)))) as [[] lim];
      simpl; [|intros [= ? _]; by subst res].
    case_bool_decide; [|intros [= ? _]; by subst res].
    intros Hloop. apply IH in Hloop as (? & ? & -> & ?). simpl.
    split_and!; try done. by rewrite Hcfg3.
Qed.

(** X7: when operator() returns l_true, the engine it leaves behind is
    the one a call of search returned with l_true, with nothing done to it
    since: both repair sets are empty, and the configuration is the one
    operator() started with. *)
Theorem operator_call_sat (st st' : sls) :
  operator_call st = Some (l_true, st') →
  m_repair_down st' = ∅ ∧ m_repair_up st' = ∅ ∧ m_config st' = m_config st
  ∧ ∃ s, search s = (l_true, st').
Proof.
  unfold operator_call. intros Hrun.
  apply restart_loop_sat in Hrun. exact Hrun.
Qed.



(** ** Initialisation and restart *)

Lemma init_repair_establishes (st : sls) :
  set_overwrites →
  m_repair_up (init_repair st) = ∅
  ∧ (∀ a, a ∈ assertions → bval0 (m_eval (init_repair st)) a = true)
  ∧ (∀ id, id ∈ m_repair_down (init_repair st) →
           (∃ a, a ∈ assertions ∧ get_id a = id)
           ∨ (∃ t, Some t ∈ terms ∧ get_id t = id)).
Proof.
  intros Hset. unfold init_repair.
  pose proof (init_repair_assertions_spec assertions (m_eval st)
                uint_set.reset Hset) as [Hv Hd].
  destruct (init_repair_assertions assertions (m_eval st) uint_set.reset)
    as [ev down]. simpl in *. split_and!; [done | |].
  - intros a Ha. apply Hv.
    destruct (bval0 (m_eval st) a) eqn:Hb; [by left|]. right. by exists a.
  - intros id Hid. apply init_repair_terms_spec in Hid as [Hid|Hid].
    + apply Hd in Hid as [Hid|(a & ? & ? & _)]; [set_solver|].
      left. by exists a.
    + destruct Hid as (t & ? & ? & _). right. by exists t.
Qed.

Lemma init_repair_forgets_sets (st : sls) (d u : gset nat) :
  init_repair (with_up (with_down st d) u) = init_repair st.
Proof. unfold init_repair. simpl. by destruct (init_repair_assertions _ _ _). Qed.

(** X8: what init_eval and reinit_eval establish.  After either one the
    up set is empty, every assertion has the current value true, and down
    holds only ids of assertions and of terms; the result does not depend
    on what the repair sets held before, and the configuration, the
    statistics, the limit and the output are as they were.  The caller's
    oracle state comes back as the evaluator left it. *)
Theorem restart_establishes (st : sls) :
  set_overwrites →
  (let st' := reinit_eval st in
   m_repair_up st' = ∅
   ∧ (∀ a, a ∈ assertions → bval0 (m_eval st') a = true)
   ∧ (∀ id, id ∈ m_repair_down st' →
            (∃ a, a ∈ assertions ∧ get_id a = id)
            ∨ (∃ t, Some t ∈ terms ∧ get_id t = id))
   ∧ driver_fields st' = driver_fields st
   ∧ ∀ d u, reinit_eval (with_up (with_down st d) u) = st')
  ∧ (∀ (R : Type) (eval : sls_eval → expr → nat → R → bool * R) (w : R),
       let st' := (init_eval eval w st).1 in
       m_repair_up st' = ∅
       ∧ (∀ a, a ∈ assertions → bval0 (m_eval st') a = true)
       ∧ (∀ id, id ∈ m_repair_down st' →
                (∃ a, a ∈ assertions ∧ get_id a = id)
                ∨ (∃ t, Some t ∈ terms ∧ get_id t = id))
       ∧ driver_fields st' = driver_fields st
       ∧ m_rand st' = m_rand st
       ∧ (init_eval eval w st).2 =
         (eval_init_eval (m_eval st) assertions eval w).2
       ∧ ∀ d u, (init_eval eval w (with_up (with_down st d) u)).1 = st').
Proof.
  intros Hset. split.
  - cbv zeta. unfold reinit_eval.
    destruct (eval_init_eval (m_eval st) assertions reinit_oracle (m_rand st))
      as [ev r] eqn:Hev.
    destruct (init_repair_establishes (with_rand (with_eval st ev) r) Hset)
      as (Hu & Hv & Hd).
    split_and!; try done.
    + by rewrite driver_fields_init_repair.
    + intros d u. simpl. rewrite Hev.
      rewrite <- (init_repair_forgets_sets (with_rand (with_eval st ev) r) d u).
      done.
  - intros R eval w. cbv zeta. unfold init_eval.
    destruct (eval_init_eval (m_eval st) assertions eval w) as [ev w'] eqn:Hev.
    simpl.
    destruct (init_repair_establishes
                (with_eval st (eval_init_fixed ev assertions)) Hset)
      as (Hu & Hv & Hd).
    split_and!; try done.
    + by rewrite driver_fields_init_repair.
    + unfold init_repair. by destruct (init_repair_assertions _ _ _).
    + intros d u. rewrite Hev. simpl.
      rewrite <- (init_repair_forgets_sets
                    (with_eval st (eval_init_fixed ev assertions)) d u).
      done.
Qed.

End MoreProperties.

Section ModelProperties.
Context {T : Terms} {E : Evaluator} {G : RandomGen} {L : Host}
        {M : ModelSupport}.

(** ** Model extraction and display *)

Lemma get_model_loop_spec (ev : sls_eval) (ts : list expr)
      (mdl : list (func_decl * model_value)) (f : func_decl)
      (v : model_value) :
  (f, v) ∈ get_model_loop ev ts mdl ↔
  (f, v) ∈ mdl
  ∨ ∃ e, e ∈ ts ∧ is_uninterp_const e = true ∧ f = get_decl e ∧
         (is_bool e = true ∧ v = mk_bool_val (bval0 ev e)
          ∨ is_bool e = false ∧ is_bv e = true ∧
            v = mk_numeral (bits (wval0 ev e)) (bw (wval0 ev e))).
Proof.
  revert mdl. induction ts as [|e ts IH]; intros mdl; simpl.
  - split; [by left|]. intros [?|(e & He & _)]; [done | by inversion He].
  - assert (∀ P : expr → Prop,
              (∃ e', e' ∈ e :: ts ∧ P e') ↔ P e ∨ ∃ e', e' ∈ ts ∧ P e')
      as Hcons.
    { intros P. split.
      - intros (e' & Hin & HP). apply elem_of_cons in Hin as [->|Hin].
        + by left.
        + right. by exists e'.
      - intros [HP|(e' & Hin & HP)].
        + exists e. split; [by left|done].
        + exists e'. split; [by right|done]. }
    rewrite (Hcons (λ e, is_uninterp_const e = true ∧ f = get_decl e ∧
       (is_bool e = true ∧ v = mk_bool_val (bval0 ev e)
        ∨ is_bool e = false ∧ is_bv e = true ∧
          v = mk_numeral (bits (wval0 ev e)) (bw (wval0 ev e))))).
    set (B := ∃ e', e' ∈ ts ∧ _).
    destruct (is_uninterp_const e) eqn:Hc; simpl.
    + destruct (is_bool e) eqn:Hb; [|destruct (is_bv e) eqn:Hv].
      * rewrite IH, elem_of_app, list_elem_of_singleton. fold B.
        assert ((f, v) = (get_decl e, mk_bool_val (bval0 ev e)) ↔
                true = true ∧ f = get_decl e ∧
                (true = true ∧ v = mk_bool_val (bval0 ev e)
                 ∨ true = false ∧ is_bv e = true ∧
                   v = mk_numeral (bits (wval0 ev e)) (bw (wval0 ev e))))
          as <-; [|tauto].
        split; [intros [= -> ->]; tauto|].
        intros (_ & -> & [[_ ->]|[? _]]); done.
      * rewrite IH, elem_of_app, list_elem_of_singleton. fold B.
        unfold get_value.
        assert ((f, v) = (get_decl e,
                  mk_numeral (bits (wval0 ev e)) (bw (wval0 ev e))) ↔
                true = true ∧ f = get_decl e ∧
                (false = true ∧ v = mk_bool_val (bval0 ev e)
                 ∨ false = false ∧ true = true ∧
                   v = mk_numeral (bits (wval0 ev e)) (bw (wval0 ev e))))
          as <-; [|tauto].
        split; [intros [= -> ->]; tauto|].
        intros (_ & -> & [[? _]|(_ & _ & ->)]); done.
      * rewrite IH. fold B.
        assert (¬ (true = true ∧ f = get_decl e ∧
                (false = true ∧ v = mk_bool_val (bval0 ev e)
                 ∨ false = false ∧ false = true ∧
                   v = mk_numeral (bits (wval0 ev e)) (bw (wval0 ev e)))))
          as Hno; [|tauto].
        intros (_ & _ & [[? _]|(_ & ? & _)]); done.
    + rewrite IH. fold B.
      assert (¬ (false = true ∧ f = get_decl e ∧
              (is_bool e = true ∧ v = mk_bool_val (bval0 ev e)
               ∨ is_bool e = false ∧ is_bv e = true ∧
                 v = mk_numeral (bits (wval0 ev e)) (bw (wval0 ev e)))))
        as Hno; [|tauto].
      intros (? & _); done.
Qed.

Lemma get_model_loop_length (ev : sls_eval) (ts : list expr)
      (mdl : list (func_decl * model_value)) :
  length (get_model_loop ev ts mdl) ≤ length mdl + length ts.
Proof.
  revert mdl. induction ts as [|e ts IH]; intros mdl; simpl; [lia|].
  destruct (is_uninterp_const e); simpl; [|specialize (IH mdl); lia].
  destruct (is_bool e); [|destruct (is_bv e)];
    [specialize (IH (mdl ++ [(get_decl e, mk_bool_val (bval0 ev e))]))
    |specialize (IH (mdl ++ [(get_decl e,
                     mk_numeral (get_value (wval0 ev e)) (bw (wval0 ev e)))]))
    |specialize (IH mdl)];
    rewrite ?length_app in IH; simpl in IH; lia.
Qed.

(** X9: get_model registers a value for exactly the uninterpreted
    constants of Boolean or bit-vector sort among the sorted terms: a
    Boolean constant gets its current value, a bit-vector constant the
    number its current bits denote with its width.  Terms that are not
    constants, and constants of any other sort, get no entry.  The engine
    is left as it was but for the evaluator's list of sorted terms. *)
Theorem get_model_entries (st : sls) :
  let ts := (sort_assertions (m_eval st) assertions).1 in
  let ev := (sort_assertions (m_eval st) assertions).2 in
  (∀ f v,
      (f, v) ∈ (get_model st).1 ↔
      ∃ e, e ∈ ts ∧ is_uninterp_const e = true ∧ f = get_decl e ∧
           (is_bool e = true ∧ v = mk_bool_val (bval0 ev e)
            ∨ is_bool e = false ∧ is_bv e = true ∧
              v = mk_numeral (bits (wval0 ev e)) (bw (wval0 ev e))))
  ∧ length (get_model st).1 ≤ length ts
  ∧ (get_model st).2 = with_eval st (sorted_reset ev).
Proof.
  cbv zeta. unfold get_model.
  destruct (sort_assertions (m_eval st) assertions) as [ts ev]. simpl.
  split_and!; [|apply (get_model_loop_length ev ts [])|done].
  intros f v. rewrite get_model_loop_spec. split; [|by right].
  intros [Hnil|?]; [by inversion Hnil | done].
Qed.

(** X10: after operator() returned l_true, display marks no term with
    [d] or [u], and prints one line per sorted term, in their order. *)
Theorem display_after_sat (st st' : sls) :
  operator_call st = Some (l_true, st') →
  Forall (λ ln, mark_d ln = false ∧ mark_u ln = false) (display st').1
  ∧ map line_id (display st').1 =
    map get_id (sort_assertions (m_eval st') assertions).1.
Proof.
  intros Hrun. unfold operator_call in Hrun.
  apply restart_loop_sat in Hrun as (Hd & Hu & _ & _).
  unfold display.
  destruct (sort_assertions (m_eval st') assertions) as [ts ev]. simpl.
  split.
  - apply Forall_forall. intros ln Hln.
    apply list_elem_of_fmap in Hln as (e & -> & _). simpl.
    rewrite Hd, Hu. unfold uint_set.contains.
    split; apply bool_decide_eq_false_2; set_solver.
  - rewrite <- list_fmap_compose. done.
Qed.

End ModelProperties.


(** * Concrete executions on the sample instance *)

Section Runs.
#[local] Existing Instance sample.sample_terms.
#[local] Existing Instance sample.sample_eval.
#[local] Existing Instance sample.sample_rand.
#[local] Existing Instance sample.sample_host.

(** The engine before initialisation of the repair sets: generator at 7,
    budget of 10 moves and 2 restarts, 100 polls of the limit allowed. *)
Definition state0 : sample.state :=
  sample.start sample.values0 ∅ ∅ 7 (mk_config 10 2) 100.

(** After [init_repair]: down is {2, 3, 6}. *)
Definition state1 : sample.state := init_repair state0.

(** The same engine with no move budget and one restart. *)
Definition state2 : sample.state := with_config state1 (mk_config 0 1).


Lemma sample_set_overwrites : set_overwrites.
Proof.
  intros ev a v b. simpl. unfold sample.cur, sample.assign. simpl.
  destruct v; repeat case_bool_decide; set_solver.
Qed.

Example sample_init_repair :
  m_repair_down state1 = {[2; 3; 6]} ∧ m_repair_up state1 = ∅.
Proof. split; by vm_compute. Qed.

Example sample_search_sat :
  (search state1).1 = l_true ∧
  sample.trues (m_eval (search state1).2) = {[2; 5]} ∧
  m_moves (m_stats (search state1).2) = 9%N.
Proof. split_and!; by vm_compute. Qed.

(** C2, witness: the sample evaluator meets the contract of [set], and
    init_repair on the sample leaves up empty and the assertions true. *)
Lemma init_repair_sets_witness :
  set_overwrites ∧
  m_repair_up (init_repair state0) = ∅ ∧
  ∀ a, a ∈ assertions → bval0 (m_eval (init_repair state0)) a = true.
Proof.
  split; [exact sample_set_overwrites|].
  pose proof (init_repair_sets state0 sample_set_overwrites) as H.
  cbv zeta in H. destruct H as (Hup & _ & Hv & _). split; assumption.
Defined.

(** C2, counterexample: on the sample, node 3 is in down after
    init_repair although it is no assertion and can_eval1 is false for
    it, so down is not the set the spec describes. *)
Lemma init_repair_queues_unevaluable :
  ¬ down_as_specified state0 (init_repair state0).
Proof.
  intros H. destruct (H 3) as [Hin _].
  destruct Hin as [(a & Ha & Hid & _)|(t & _ & Hid & Hcan & _)].
  - apply (bool_decide_unpack _). by vm_compute.
  - simpl in Hid. subst a. set_solver.
  - simpl in Hid. subst t. by vm_compute in Hcan.
Qed.

(** C5, witness: node 2 of the sample has one child; the start index is
    below 1 and the generator moves on by one draw. *)
Lemma try_repair_down_cyclic_witness :
  0 < get_num_args 2 ∧
  (rand_below (get_num_args 2) (m_rand state1)).1 < get_num_args 2 ∧
  m_rand (try_repair_down 2 state1) = 8.
Proof.
  assert (0 < get_num_args 2) as Hn by (simpl; lia).
  split; [exact Hn|].
  pose proof (try_repair_down_cyclic 2 state1 Hn) as H.
  cbv zeta in H. destruct H as (Hs & Hr & _).
  split; [exact Hs | exact Hr].
Defined.

(** C5, counterexample: on the sample, the repair of the child of node 2
    succeeds, and node 2, which was not in up, is in up afterwards: its
    own set membership has changed. *)
Lemma try_repair_down_enters_up :
  (try_repair (m_eval state1) 2 0).1 = true ∧
  ¬ membership_unchanged 2 state1 (try_repair_down 2 state1).
Proof.
  split; [reflexivity|]. intros [_ [Hup _]].
  assert (get_id 2 ∈ m_repair_up (try_repair_down 2 state1)) as Hin.
  { apply (bool_decide_unpack _). by vm_compute. }
  assert (get_id 2 ∉ m_repair_up state1) as Hout.
  { apply (bool_decide_unpack _). by vm_compute. }
  apply Hout, Hup, Hin.
Qed.

(** C10, witness: node 6 of the sample has no children and is never
    correct; picked from down, it is moved from down to up by
    try_repair_down and by the pass of the search loop that picks it. *)
Lemma try_repair_down_leaf_witness :
  get_num_args 6 = 0 ∧
  (get_id 6 ∉ m_repair_down (try_repair_down 6 (with_down state1 {[6]}))) ∧
  get_id 6 ∈ m_repair_up (try_repair_down 6 (with_down state1 {[6]})) ∧
  ∃ st'', search_iteration (with_down state1 {[6]}) = continues st'' ∧
          m_repair_down st'' = {[6]} ∖ {[6]} ∧
          m_repair_up st'' = {[6]} ∪ ∅.
Proof.
  split; [reflexivity|].
  pose proof (try_repair_down_leaf 6 (with_down state1 {[6]}) eq_refl) as H.
  cbv zeta in H. destruct H as [(_ & _ & _ & _ & Hd & Hu) Hpass].
  split; [exact Hd|]. split; [exact Hu|].
  destruct (Hpass eq_refl eq_refl eq_refl) as (st'' & Hit & _ & Hd' & Hu').
  exists st''. split; [exact Hit|]. split; [exact Hd' | exact Hu'].
Defined.

(** C3, witness: on the sample, the repair of child 0 of node 2 succeeds
    and leaves the child in down and its parents 2 and 3 in up. *)
Lemma changed_node_parents_in_up_witness :
  (try_repair_down_arg 2 0 state1).1 = true ∧
  get_id (get_arg 2 0) ∈ m_repair_down (try_repair_down_arg 2 0 state1).2 ∧
  ∀ p, p ∈ parents (get_arg 2 0) →
       get_id p ∈ m_repair_up (try_repair_down_arg 2 0 state1).2.
Proof.
  split; [reflexivity|].
  destruct (@changed_node_parents_in_up sample.sample_terms
              sample.sample_eval sample.sample_rand sample.sample_host)
    as [Hdown _].
  pose proof (Hdown 2 0 state1 (try_repair_down_arg 2 0 state1).2 eq_refl)
    as (_ & Hc & Hp).
  split; [exact Hc | exact Hp].
Defined.

(** X1, witness: node 2 of the sample is an assertion; popped from up it
    goes back into down. *)
Lemma try_repair_up_assertion_witness :
  is_assertion 2 = true ∧
  (get_id 2 ∉ m_repair_up (try_repair_up 2 (with_up state1 {[2]}))) ∧
  get_id 2 ∈ m_repair_down (try_repair_up 2 (with_up state1 {[2]})).
Proof.
  split; [reflexivity|].
  pose proof (try_repair_up_assertion 2 (with_up state1 {[2]}) eq_refl) as H.
  cbv zeta in H. destruct H as (_ & _ & _ & Hu & Hd).
  split; [exact Hu | exact Hd].
Defined.

(** X2, witness: node 0 of the sample is correct; picked from down it is
    dropped from down. *)
Lemma correct_pick_is_dropped_witness :
  eval_is_correct (m_eval (with_down state1 {[0]})) 0 = true ∧
  ∃ st', search_iteration (with_down state1 {[0]}) = continues st' ∧
         m_repair_down st' = {[0]} ∖ {[0]}.
Proof.
  split; [reflexivity|].
  pose proof (correct_pick_is_dropped 0 true (with_down state1 {[0]})
                eq_refl eq_refl eq_refl) as (st' & Hit & _ & Hd & _).
  exists st'. split; [exact Hit | exact Hd].
Defined.


(** C7, witness: with no move budget and one restart the driver ends. *)
Lemma operator_call_restarts_witness :
  (m_max_restarts (m_config state2) ≤ UINT_MAX)%N ∧
  ∃ res st', operator_call state2 = Some (res, st') ∧ res ≠ l_false.
Proof.
  assert (m_max_restarts (m_config state2) ≤ UINT_MAX)%N as HM
      by (by vm_compute).
  split; [exact HM|].
  pose proof (operator_call_restarts state2 HM) as H.
  cbv zeta in H. destruct H as [(res & st' & k & Hrun & Hnf & _) _].
  exists res, st'. split; [exact Hrun | exact Hnf].
Defined.

Example sample_restart_lines :
  (λ r, (r.1, m_out r.2, m_restarts (m_stats r.2))) <$> operator_call state2
  = Some (l_undef, [restart_line 0 3 0; restart_line 1 3 0], 2%N).
Proof. by vm_compute. Qed.

(** C7, counterexample: on the sample with no move budget and one
    restart, the first restart line reports 0: it is written before the
    counter is incremented. *)
Lemma first_trace_reports_zero : ¬ traces_after_increment state2.
Proof.
  intros H. pose proof sample_restart_lines as Hlines.
  destruct (operator_call state2) as [[res st']|] eqn:Hrun;
    [|discriminate Hlines].
  specialize (H res st' Hrun 0%N).
  injection Hlines as _ Hout _. simpl in Hout.
  rewrite Hout in H.
  assert (1 ≤ 0)%N as Habs by (apply H; constructor). lia.
Qed.


(** C9, counterexample: the parameters max_restarts = 0 and
    random_seed = 0 are not positive, yet updt_params does not reject
    them: it installs both. *)
Lemma updt_params_accepts_zero :
  ¬ valid_params (mk_params 0 0) ∧
  ¬ rejects (mk_params 0 0) state1 ∧
  m_max_restarts (m_config (updt_params (mk_params 0 0) state1)) = 0%N ∧
  m_rand (updt_params (mk_params 0 0) state1) = set_seed 0.
Proof.
  split_and!; [| |reflexivity|reflexivity].
  - unfold valid_params. simpl. lia.
  - assert (m_rand (updt_params (mk_params 0 0) state1) ≠ m_rand state1)
      as Hne by (by vm_compute).
    intros Hr. apply Hne. unfold rejects in Hr. by rewrite Hr.
Qed.

End Runs.

(** * Further executions on the sample instance *)

Section MoreRuns.
#[local] Existing Instance sample.sample_terms.
#[local] Existing Instance sample.sample_eval.
#[local] Existing Instance sample.sample_rand.
#[local] Existing Instance sample.sample_host.
#[local] Existing Instance sample_models.

(** The engine after one pass of the search loop. *)
Definition after_pass (st : sample.state) : sample.state :=
  match search_iteration st with
  | returns _ st' | continues st' => st'
  end.

(** Whether a pass went on. *)
Definition goes_on (it : @iteration sample.sample_terms sample.sample_eval
                           sample.sample_rand sample.sample_host) : bool :=
  match it with continues _ => true | returns _ _ => false end.

Example sample_first_pass : goes_on (search_iteration state1) = true.
Proof. by vm_compute. Qed.

Example sample_run_sat : fst <$> operator_call state1 = Some l_true.
Proof. by vm_compute. Qed.

Example sample_model :
  (get_model (search state1).2).1 =
  [(0, mk_bool_val false); (1, mk_numeral 2 2); (5, mk_bool_val true)].
Proof. by vm_compute. Qed.

(** X3, witness: node 2 of the sample is in down; after try_repair_down
    on it every node queued before is still queued. *)
Lemma try_repair_down_keeps_queue_witness :
  get_id 2 ∈ m_repair_down state1 ∧
  m_repair_down state1 ∪ m_repair_up state1 ⊆
  m_repair_down (try_repair_down 2 state1)
  ∪ m_repair_up (try_repair_down 2 state1).
Proof.
  assert (get_id 2 ∈ m_repair_down state1) as Hin.
  { apply (bool_decide_unpack _). by vm_compute. }
  split; [exact Hin|].
  pose proof (try_repair_down_keeps_queue 2 state1 Hin) as H.
  cbv zeta in H. destruct H as (_ & _ & Hsub). exact Hsub.
Defined.

(** X4, witness: the first pass of search on the sample goes on, and
    drops nothing but the picked node. *)
Lemma pass_drops_only_pick_witness :
  search_iteration state1 = continues (after_pass state1) ∧
  ∃ (down : bool) (e : expr),
    ∀ x, x ≠ get_id e →
         (x ∈ m_repair_down state1 → x ∈ m_repair_down (after_pass state1))
         ∧ (x ∈ m_repair_up state1 → x ∈ m_repair_up (after_pass state1)).
Proof.
  assert (search_iteration state1 = continues (after_pass state1)) as Hit.
  { pose proof sample_first_pass as Hgo. unfold after_pass.
    destruct (search_iteration state1); [discriminate Hgo | reflexivity]. }
  split; [exact Hit|].
  pose proof (pass_drops_only_pick state1 (after_pass state1) Hit)
    as (down & e & _ & Hkeep).
  exists down, e. exact Hkeep.
Defined.

(** X6, witness: the sample with its repair sets emptied has nothing to
    repair, a budget of 10 moves and a limit that permits: search returns
    l_true. *)
Lemma search_nothing_to_repair_witness :
  m_repair_down (with_down state1 ∅) = ∅ ∧
  m_repair_up (with_down state1 ∅) = ∅ ∧
  (search (with_down state1 ∅)).1 = l_true.
Proof.
  assert (m_repair_up (with_down state1 ∅) = ∅) as Hu by (by vm_compute).
  split; [reflexivity|]. split; [exact Hu|].
  pose proof (search_nothing_to_repair (with_down state1 ∅) eq_refl Hu)
    as (Htrue & _).
  apply Htrue. split; [by vm_compute | reflexivity].
Defined.

(** X7, witness: operator() on the sample returns l_true and leaves both
    repair sets empty. *)
Lemma operator_call_sat_witness :
  ∃ st', operator_call state1 = Some (l_true, st') ∧
         m_repair_down st' = ∅ ∧ m_repair_up st' = ∅.
Proof.
  pose proof sample_run_sat as Hres.
  destruct (operator_call state1) as [[res st']|] eqn:Hrun;
    [|discriminate Hres].
  injection Hres as ->. exists st'. split; [reflexivity|].
  pose proof (operator_call_sat state1 st' Hrun) as (Hd & Hu & _).
  split; [exact Hd | exact Hu].
Defined.

(** X8, witness: the sample evaluator meets the contract of [set], and
    after reinit_eval on the sample up is empty and the assertions are
    true. *)
Lemma restart_establishes_witness :
  set_overwrites ∧
  m_repair_up (reinit_eval state1) = ∅ ∧
  ∀ a, a ∈ assertions → bval0 (m_eval (reinit_eval state1)) a = true.
Proof.
  split; [exact sample_set_overwrites|].
  pose proof (restart_establishes state1 sample_set_overwrites) as [H _].
  cbv zeta in H. destruct H as (Hu & Hv & _). split; [exact Hu | exact Hv].
Defined.

(** X10, witness: after the run of operator() on the sample, display
    marks no line with [d] or [u]. *)
Lemma display_after_sat_witness :
  ∃ st', operator_call state1 = Some (l_true, st') ∧
         Forall (λ ln, mark_d ln = false ∧ mark_u ln = false) (display st').1.
Proof.
  pose proof sample_run_sat as Hres.
  destruct (operator_call state1) as [[res st']|] eqn:Hrun;
    [|discriminate Hres].
  injection Hres as ->. exists st'. split; [reflexivity|].
  pose proof (display_after_sat state1 st' Hrun) as (Hmarks & _).
  exact Hmarks.
Defined.

End MoreRuns.
